(** * Fearsome Fishing: the fish actor and the frame driver

    A shallow embedding of [src/scene/fish.ts] and of the [run] loop of
    [src/main.ts].  The module-level [let] variables of [fish.ts] become the
    fields of one record, [World], which every function of the module
    threads explicitly.  JavaScript numbers are idealised as real numbers;
    timer delays and repetition counts, which the code draws with
    [getRandomInt], are integers. *)

From Stdlib Require Import Reals Lra Lia ZArith Bool List PeanoNat.
Import ListNotations.

Open Scope R_scope.

(** ** three.js values *)

Record Vector3 : Type := vec3 { v_x : R; v_y : R; v_z : R }.

(** [Vector3.distanceToSquared] and [Vector3.distanceTo]. *)
Definition distanceToSquared (a b : Vector3) : R :=
  let dx := v_x a - v_x b in
  let dy := v_y a - v_y b in
  let dz := v_z a - v_z b in
  dx * dx + dy * dy + dz * dz.

Definition distanceTo (a b : Vector3) : R := sqrt (distanceToSquared a b).

(** [Vector3.addScaledVector]: [this + v * s], componentwise. *)
Definition addScaledVector (p v : Vector3) (s : R) : Vector3 :=
  vec3 (v_x p + v_x v * s) (v_y p + v_y v * s) (v_z p + v_z v * s).

(** [MathUtils.degToRad]. *)
Definition degToRad (degrees : R) : R := degrees * (PI / 180).

(** The orientation of an [Object3D], kept as the call that last set it:
    each of the three setters used by the fish overwrites the quaternion
    as a whole.  [lookAt] depends on the position the object has when it is
    called, so that position is recorded with the target. *)
Inductive Rotation : Type :=
| rot_identity
| rot_axisAngle (axis : Vector3) (angle : R)
| rot_euler (x y z : R)
| rot_lookAt (eye target : Vector3).

(** The [Group] that is the fish: its transform. *)
Record Group : Type := mkGroup {
  position : Vector3;
  rotation : Rotation;
  scale : Vector3
}.

(** An [AnimationAction] as far as the fish drives it.  [scheduled] is
    membership in the mixer's list of active actions ([play] / [stop]),
    [enabled] the flag that [reset] sets and the end of the last repetition
    clears; [repetitions] is [None] for the default [Infinity]. *)
Record AnimationAction : Type := mkAction {
  scheduled : bool;
  enabled : bool;
  action_time : R;
  repetitions : option Z
}.

Definition action_reset (a : AnimationAction) : AnimationAction :=
  mkAction (scheduled a) true 0 (repetitions a).

Definition action_play (a : AnimationAction) : AnimationAction :=
  mkAction true (enabled a) (action_time a) (repetitions a).

Definition action_stop (a : AnimationAction) : AnimationAction :=
  action_reset (mkAction false (enabled a) (action_time a) (repetitions a)).

Definition action_set_repetitions (a : AnimationAction) (n : Z)
  : AnimationAction :=
  mkAction (scheduled a) (enabled a) (action_time a) (Some n).

Definition action_running (a : AnimationAction) : bool :=
  scheduled a && enabled a.

(** ** The fish module's own types *)

Inductive FishStates : Type := IDLE | SWIMMING | BEING_REELED | FLOPPING.

Inductive Event : Type :=
| RESET | ON_FISH_FIGHT | ON_FISHERMAN_FIGHT | ON_FISH_CAUGHT.

(** The functions stored as values: the per-frame callback held by the
    state container and the function held by
    [changeSwimDirectionCallback]. *)
Inductive OnTick : Type :=
| tick_SWIMMING | tick_BEING_REELED | tick_FLOPPING.

Inductive SwimDirectionCallback : Type :=
| cb_nothing | cb_TowardFisherman | cb_AwayFisherman.

(** Modelled from the spec: the class [State] of [core/state], which is not
    among the sources.  [set] replaces tag and callback together, [get]
    returns the tag, [update] calls the callback when it is not null. *)
Record State : Type := mkState {
  state_tag : FishStates;
  state_onTick : option OnTick
}.

Definition State_set (tag : FishStates) (cb : option OnTick) : State :=
  mkState tag cb.

Definition State_get (s : State) : FishStates := state_tag s.

Definition State_update {W : Type} (call : OnTick -> W -> W) (s : State)
  (w : W) : W :=
  match state_onTick s with
  | Some cb => call cb w
  | None => w
  end.

(** The closures handed to [setTimeout]. *)
Inductive TimerBody : Type :=
| body_changeSwimDirections
| body_flop (speed : R) (nFlops : Z).

Record Timeout : Type := mkTimeout {
  timer_id : nat;
  timer_delay : Z;
  timer_body : TimerBody
}.

Inductive TimerKind : Type := DirectionChange | Flop.

Definition kind_of (b : TimerBody) : TimerKind :=
  match b with
  | body_changeSwimDirections => DirectionChange
  | body_flop _ _ => Flop
  end.

Definition TimerKind_eqb (a b : TimerKind) : bool :=
  match a, b with
  | DirectionChange, DirectionChange => true
  | Flop, Flop => true
  | _, _ => false
  end.

(** The timeouts of kind [k] in a queue, and the test that a timeout is
    not the one with handle [id]. *)
Definition of_kind (k : TimerKind) (ts : list Timeout) : list Timeout :=
  filter (fun t => TimerKind_eqb (kind_of (timer_body t)) k) ts.

Definition not_id (id : nat) (t : Timeout) : bool :=
  negb (Nat.eqb (timer_id t) id).

(** What an observer of the module sees: an event handed to [transmit], or
    the closure of a timeout being run. *)
Inductive Obs : Type :=
| obs_transmit (e : Event)
| obs_timeout (id : nat) (b : TimerBody).

(** What the fish reads from the other modules during one call. *)
Record Env : Type := mkEnv {
  delta : R;
  fishermanPosition : Vector3;
  bobberPosition : Vector3
}.

(** The collaborators whose code is outside the module: the random helpers
    of [util/random], [getDirection] of [util/vector], [Math.atan2],
    [Object3D.getWorldDirection], and of the mixer, the decision that
    advancing an action by some time ends its last repetition and the
    time it leaves the action at (wrapped per loop, held at the end). *)
Class Collaborators : Type := {
  Rand : Type;
  getRandomFloat : R -> R -> Rand -> R * Rand;
  getRandomInt : Z -> Z -> Rand -> Z * Rand;
  getDirection : Vector3 -> Vector3 -> Vector3;
  atan2 : R -> R -> R;
  getWorldDirection : Rotation -> Vector3;
  clipFinishes : AnimationAction -> R -> bool;
  clipTime : AnimationAction -> R -> R
}.

(** The contract of [getRandomFloat min max]: a number between its
    bounds. *)
Definition getRandomFloat_in_range (C : Collaborators) : Prop :=
  forall (lo hi : R) (g : Rand),
    lo <= hi -> lo <= fst (getRandomFloat lo hi g) <= hi.

Section Fish.

Context {C : Collaborators}.

(** ** Module state *)

Record World : Type := mkWorld {
  fish : Group;
  state : State;
  flopAnimationAction : AnimationAction;
  flopPlaybackSpeed : R;
  flopTimeoutId : option nat;
  swimDirectionChangeTimeoutId : option nat;
  changeSwimDirectionCallback : SwimDirectionCallback;
  timers : list Timeout;
  nextTimerId : nat;
  rng : Rand;
  trace : list Obs
}.

Definition set_fish (f : Group) (w : World) : World :=
  mkWorld f (state w) (flopAnimationAction w) (flopPlaybackSpeed w)
    (flopTimeoutId w) (swimDirectionChangeTimeoutId w)
    (changeSwimDirectionCallback w) (timers w) (nextTimerId w) (rng w)
    (trace w).

Definition set_state (s : State) (w : World) : World :=
  mkWorld (fish w) s (flopAnimationAction w) (flopPlaybackSpeed w)
    (flopTimeoutId w) (swimDirectionChangeTimeoutId w)
    (changeSwimDirectionCallback w) (timers w) (nextTimerId w) (rng w)
    (trace w).

Definition set_flopAnimationAction (a : AnimationAction) (w : World)
  : World :=
  mkWorld (fish w) (state w) a (flopPlaybackSpeed w)
    (flopTimeoutId w) (swimDirectionChangeTimeoutId w)
    (changeSwimDirectionCallback w) (timers w) (nextTimerId w) (rng w)
    (trace w).

Definition set_flopPlaybackSpeed (s : R) (w : World) : World :=
  mkWorld (fish w) (state w) (flopAnimationAction w) s
    (flopTimeoutId w) (swimDirectionChangeTimeoutId w)
    (changeSwimDirectionCallback w) (timers w) (nextTimerId w) (rng w)
    (trace w).

Definition set_flopTimeoutId (h : option nat) (w : World) : World :=
  mkWorld (fish w) (state w) (flopAnimationAction w) (flopPlaybackSpeed w)
    h (swimDirectionChangeTimeoutId w)
    (changeSwimDirectionCallback w) (timers w) (nextTimerId w) (rng w)
    (trace w).

Definition set_swimDirectionChangeTimeoutId (h : option nat) (w : World)
  : World :=
  mkWorld (fish w) (state w) (flopAnimationAction w) (flopPlaybackSpeed w)
    (flopTimeoutId w) h
    (changeSwimDirectionCallback w) (timers w) (nextTimerId w) (rng w)
    (trace w).

Definition set_changeSwimDirectionCallback (cb : SwimDirectionCallback)
  (w : World) : World :=
  mkWorld (fish w) (state w) (flopAnimationAction w) (flopPlaybackSpeed w)
    (flopTimeoutId w) (swimDirectionChangeTimeoutId w)
    cb (timers w) (nextTimerId w) (rng w) (trace w).

Definition set_timers (ts : list Timeout) (w : World) : World :=
  mkWorld (fish w) (state w) (flopAnimationAction w) (flopPlaybackSpeed w)
    (flopTimeoutId w) (swimDirectionChangeTimeoutId w)
    (changeSwimDirectionCallback w) ts (nextTimerId w) (rng w) (trace w).

Definition set_nextTimerId (n : nat) (w : World) : World :=
  mkWorld (fish w) (state w) (flopAnimationAction w) (flopPlaybackSpeed w)
    (flopTimeoutId w) (swimDirectionChangeTimeoutId w)
    (changeSwimDirectionCallback w) (timers w) n (rng w) (trace w).

Definition set_rng (g : Rand) (w : World) : World :=
  mkWorld (fish w) (state w) (flopAnimationAction w) (flopPlaybackSpeed w)
    (flopTimeoutId w) (swimDirectionChangeTimeoutId w)
    (changeSwimDirectionCallback w) (timers w) (nextTimerId w) g (trace w).

Definition log (o : Obs) (w : World) : World :=
  mkWorld (fish w) (state w) (flopAnimationAction w) (flopPlaybackSpeed w)
    (flopTimeoutId w) (swimDirectionChangeTimeoutId w)
    (changeSwimDirectionCallback w) (timers w) (nextTimerId w) (rng w)
    (trace w ++ [o]).

(** The module as [setup] leaves it: the loaded model untransformed, the
    state container [new State(IDLE, null)], the initialisers of the [let]
    declarations, no timer. *)
Definition initial (g : Rand) : World :=
  mkWorld (mkGroup (vec3 0 0 0) rot_identity (vec3 1 1 1))
    (mkState IDLE None)
    (mkAction false true 0 None)
    2.5 None None cb_nothing [] 1%nat g [].

(** Each call of a random helper takes the generator state [rng] and
    leaves the next one; [fst] of the result is the number drawn. *)

(** ** The platform's timers *)

(** [setTimeout(body, delay)]: a fresh handle, the timeout queued. *)
Definition setTimeout (body : TimerBody) (delay : Z) (w : World)
  : nat * World :=
  let id := nextTimerId w in
  (id, set_nextTimerId (S id)
         (set_timers (timers w ++ [mkTimeout id delay body]) w)).

(** [clearTimeout(handle)]: the timeout leaves the queue; a null handle, or
    the handle of a timeout that already ran, changes nothing. *)
Definition cleared (h : option nat) (w : World) : list Timeout :=
  match h with
  | None => timers w
  | Some id => filter (not_id id) (timers w)
  end.

Definition clearTimeout (h : option nat) (w : World) : World :=
  set_timers (cleared h w) w.

(** The queued timeouts of one kind, and the variable that holds the handle
    of that kind. *)
Definition pending (k : TimerKind) (w : World) : list Timeout :=
  of_kind k (timers w).

Definition slot (k : TimerKind) (w : World) : option nat :=
  match k with
  | DirectionChange => swimDirectionChangeTimeoutId w
  | Flop => flopTimeoutId w
  end.

(** ** fish.ts, function by function *)

Definition getState (w : World) : FishStates := State_get (state w).

Definition flop (flopCount : Z) (w : World) : World :=
  set_flopAnimationAction
    (action_set_repetitions
       (action_play (action_reset (flopAnimationAction w))) flopCount) w.

Definition cancelFlop (w : World) : World :=
  let w1 := clearTimeout (flopTimeoutId w) w in
  let w2 := set_flopTimeoutId None w1 in
  set_flopAnimationAction
    (action_reset (action_stop (flopAnimationAction w2))) w2.

Definition setFlopPlaybackSpeed (s : R) (w : World) : World :=
  let s' := if Rle_dec s 0 then 0.1 else s in
  set_flopPlaybackSpeed s' w.

Definition flopRandomly (w : World) : World :=
  match flopTimeoutId w with
  | Some _ => w
  | None =>
      let delay := getRandomInt 300 3500 (rng w) in
      let speed := getRandomFloat 0.3 3 (snd delay) in
      let nFlops := getRandomInt 1 10 (snd speed) in
      let (id, w1) :=
        setTimeout (body_flop (fst speed) (fst nFlops)) (fst delay)
          (set_rng (snd nFlops) w) in
      set_flopTimeoutId (Some id) w1
  end.

(** [getPosition] returns [fish.position.clone()]; inside the module the
    clone is only read, so here it is the value.  Module [Aliasing] below
    models the objects. *)
Definition getPosition (w : World) : Vector3 := position (fish w).

Definition setPosition (p : Vector3) (w : World) : World :=
  set_fish (mkGroup p (rotation (fish w)) (scale (fish w))) w.

Definition moveBelowBobber (env : Env) (w : World) : World :=
  let b := bobberPosition env in
  set_fish
    (mkGroup (vec3 (v_x b) (v_y (position (fish w))) (v_z b))
       (rotation (fish w)) (scale (fish w))) w.

Definition setRandomScale (min max : R) (w : World) : World :=
  let sample := getRandomFloat min max (rng w) in
  let scale := fst sample in
  set_rng (snd sample)
    (set_fish
       (mkGroup (position (fish w)) (rotation (fish w))
          (vec3 scale scale scale)) w).

Definition setRotation (r : Rotation) (w : World) : World :=
  set_fish (mkGroup (position (fish w)) r (scale (fish w))) w.

Definition cancelChangeSwimDirections (w : World) : World :=
  set_swimDirectionChangeTimeoutId None
    (clearTimeout (swimDirectionChangeTimeoutId w) w).

Definition setDirectionFrom (vec : Vector3) (angleOffset : R) (w : World)
  : World :=
  setRotation
    (rot_axisAngle (vec3 0 1 0) (atan2 (v_x vec) (v_z vec) + angleOffset)) w.

Definition setSwimDirection_TowardFisherman (env : Env) (w : World)
  : World :=
  let halfAngleOffset := degToRad (45 / 2) in
  let sample := getRandomFloat (- halfAngleOffset) halfAngleOffset (rng w) in
  let angleOffset := fst sample in
  let direction := getDirection (getPosition w) (fishermanPosition env) in
  setDirectionFrom direction angleOffset (set_rng (snd sample) w).

Definition setSwimDirection_AwayFisherman (env : Env) (w : World) : World :=
  let halfAngleOffset := degToRad (180 / 2) in
  let sample := getRandomFloat (- halfAngleOffset) halfAngleOffset (rng w) in
  let angleOffset := fst sample in
  let direction := getDirection (fishermanPosition env) (getPosition w) in
  setDirectionFrom direction angleOffset (set_rng (snd sample) w).

(** Calling the function that [changeSwimDirectionCallback] holds; its
    initial value is the empty arrow function. *)
Definition call_changeSwimDirectionCallback (env : Env) (w : World)
  : World :=
  match changeSwimDirectionCallback w with
  | cb_nothing => w
  | cb_TowardFisherman => setSwimDirection_TowardFisherman env w
  | cb_AwayFisherman => setSwimDirection_AwayFisherman env w
  end.

Definition changeSwimDirections (w : World) : World :=
  match swimDirectionChangeTimeoutId w with
  | Some _ => w
  | None =>
      let delay := getRandomInt 300 1000 (rng w) in
      let (id, w1) :=
        setTimeout body_changeSwimDirections (fst delay)
          (set_rng (snd delay) w) in
      set_swimDirectionChangeTimeoutId (Some id) w1
  end.

Definition swimSpeed : R := 30.

Definition swimForward (env : Env) (w : World) : World :=
  let v := getWorldDirection (rotation (fish w)) in
  set_fish
    (mkGroup (addScaledVector (position (fish w)) v (swimSpeed * delta env))
       (rotation (fish w)) (scale (fish w))) w.

(** The four receivers registered by [setupReceivers]. *)
Definition receiver (e : Event) (env : Env) (w : World) : World :=
  match e with
  | ON_FISH_FIGHT =>
      let w1 := cancelChangeSwimDirections w in
      let w2 := moveBelowBobber env w1 in
      let w3 := setSwimDirection_AwayFisherman env w2 in
      let w4 := set_changeSwimDirectionCallback cb_AwayFisherman w3 in
      set_state (State_set SWIMMING (Some tick_SWIMMING)) w4
  | ON_FISHERMAN_FIGHT =>
      let w1 := cancelChangeSwimDirections w in
      let w2 := setSwimDirection_TowardFisherman env w1 in
      let w3 := set_changeSwimDirectionCallback cb_TowardFisherman w2 in
      set_state (State_set BEING_REELED (Some tick_BEING_REELED)) w3
  | ON_FISH_CAUGHT =>
      let w1 := cancelChangeSwimDirections w in
      let w2 := setRotation (rot_euler (degToRad (-90)) 0 0) w1 in
      set_state (State_set FLOPPING (Some tick_FLOPPING)) w2
  | RESET =>
      let w1 := cancelFlop w in
      let w2 := setRandomScale 2 5 w1 in
      let w3 := setPosition (vec3 0 2 50) w2 in
      let w4 :=
        setRotation (rot_lookAt (position (fish w3)) (fishermanPosition env))
          w3 in
      set_state (State_set IDLE None) w4
  end.

(** Modelled from the spec: [transmit] of [events/event_manager], which is
    not among the sources.  Publishing runs the subscribers synchronously;
    of these the module knows its own receiver.  The event is recorded in
    the trace. *)
Definition transmit (e : Event) (env : Env) (w : World) : World :=
  receiver e env (log (obs_transmit e) w).

Definition checkDistance (env : Env) (w : World) : World :=
  let catchDistance := 30 in
  let distance := distanceTo (getPosition w) (fishermanPosition env) in
  if Rlt_dec distance catchDistance then transmit ON_FISH_CAUGHT env w
  else w.

Definition while_SWIMMING (env : Env) (w : World) : World :=
  let w1 :=
    match swimDirectionChangeTimeoutId w with
    | None => changeSwimDirections w
    | Some _ => w
    end in
  swimForward env w1.

Definition while_BEING_REELED (env : Env) (w : World) : World :=
  let w1 :=
    match swimDirectionChangeTimeoutId w with
    | None => changeSwimDirections w
    | Some _ => w
    end in
  let w2 := swimForward env w1 in
  checkDistance env w2.

(** The listener that [setupAnimation] adds for the mixer's [finished]
    event. *)
Definition on_finished (w : World) : World := set_flopTimeoutId None w.

(** [animationMixer.update(dt)]: a scheduled, enabled action advances; when
    that ends its last repetition the action is disabled and [finished] is
    dispatched. *)
Definition animationMixer_update (dt : R) (w : World) : World :=
  let a := flopAnimationAction w in
  if action_running a then
    let a' :=
      mkAction (scheduled a) (negb (clipFinishes a dt)) (clipTime a dt)
        (repetitions a) in
    let w1 := set_flopAnimationAction a' w in
    if clipFinishes a dt then on_finished w1 else w1
  else w.

Definition while_FLOPPING (env : Env) (w : World) : World :=
  let w1 :=
    match flopTimeoutId w with
    | None => flopRandomly w
    | Some _ => w
    end in
  animationMixer_update (delta env * flopPlaybackSpeed w1) w1.

Definition call_onTick (env : Env) (cb : OnTick) (w : World) : World :=
  match cb with
  | tick_SWIMMING => while_SWIMMING env w
  | tick_BEING_REELED => while_BEING_REELED env w
  | tick_FLOPPING => while_FLOPPING env w
  end.

Definition update (env : Env) (w : World) : World :=
  State_update (call_onTick env) (state w) w.

(** A queued timeout coming due: it leaves the queue and its closure
    runs. *)
Definition run_body (env : Env) (b : TimerBody) (w : World) : World :=
  match b with
  | body_changeSwimDirections =>
      set_swimDirectionChangeTimeoutId None
        (call_changeSwimDirectionCallback env w)
  | body_flop speed nFlops => flop nFlops (setFlopPlaybackSpeed speed w)
  end.

Definition fire (env : Env) (id : nat) (w : World) : World :=
  match find (fun t => Nat.eqb (timer_id t) id) (timers w) with
  | None => w
  | Some t =>
      run_body env (timer_body t)
        (log (obs_timeout id (timer_body t)) (clearTimeout (Some id) w))
  end.

(** ** Runs of the module *)

Inductive Action : Type :=
| Publish (e : Event)
| Tick
| Fire (id : nat).

Definition step (env : Env) (a : Action) (w : World) : World :=
  match a with
  | Publish e => transmit e env w
  | Tick => update env w
  | Fire id => fire env id w
  end.

Fixpoint steps (l : list (Env * Action)) (w : World) : World :=
  match l with
  | [] => w
  | (env, a) :: l' => steps l' (step env a w)
  end.

Inductive reachable : World -> Prop :=
| reachable_initial (g : Rand) : reachable (initial g)
| reachable_step (env : Env) (a : Action) (w : World) :
    reachable w -> reachable (step env a w).

End Fish.

Arguments World C : clear implicits.

(** The two "schedule if absent" paths, by kind of timer. *)
Definition schedule {C : Collaborators} (k : TimerKind) (w : World C)
  : World C :=
  match k with
  | DirectionChange => changeSwimDirections w
  | Flop => flopRandomly w
  end.

(** [update] called once per element of [envs], in order. *)
Fixpoint updates {C : Collaborators} (envs : list Env) (w : World C)
  : World C :=
  match envs with
  | [] => w
  | env :: envs' => updates envs' (update env w)
  end.

(** ** The timer discipline, stated *)

(** The part of the module state the discipline is about. *)
Definition timer_view {C : Collaborators} (w : World C)
  : list Timeout * option nat * option nat * AnimationAction :=
  (timers w, swimDirectionChangeTimeoutId w, flopTimeoutId w,
   flopAnimationAction w).

(** Every queued timeout of a kind is the one its slot names, there is at
    most one per kind, and while the flop action plays no flop timeout is
    queued and the flop slot is still occupied. *)
Definition timers_ok {C : Collaborators} (w : World C) : Prop :=
  (forall k t, In t (pending k w) -> slot k w = Some (timer_id t)) /\
  (forall k, (length (pending k w) <= 1)%nat) /\
  (action_running (flopAnimationAction w) = true ->
   pending Flop w = [] /\ flopTimeoutId w <> None).

(** The claim of C3 as the spec words it: whichever queued timeout fires,
    the slot of its kind is null afterwards. *)
Definition fired_timer_clears_its_slot (C : Collaborators) : Prop :=
  forall (env : Env) (w : World C) (id : nat) (t : Timeout),
    reachable w ->
    find (fun t => Nat.eqb (timer_id t) id) (timers w) = Some t ->
    slot (kind_of (timer_body t)) (fire env id w) = None.

(** The claim of C4 as the spec words it: in any state of a run, calling
    the schedule-if-absent function of a kind twice leaves exactly one
    queued timeout of that kind. *)
Definition twice_leaves_exactly_one (C : Collaborators) : Prop :=
  forall (w : World C) (k : TimerKind),
    reachable w ->
    length (pending k (schedule k (schedule k w))) = 1%nat.

(** ** Objects and aliasing

    [Vector3] objects live in a store and are named by references; this is
    what tells [fish.position.clone()] from [fish.position]. *)
Module Aliasing.

Definition Ref : Type := nat.
Definition Heap : Type := list Vector3.

Definition deref (h : Heap) (r : Ref) : Vector3 := nth r h (vec3 0 0 0).

(** [new Vector3(...)]: the object goes to the first unused reference. *)
Definition alloc (v : Vector3) (h : Heap) : Ref * Heap :=
  (length h, h ++ [v]).

(** Any mutating method of [Vector3] ([set], [copy], [add], ...) called on
    the object at [r], leaving it with components [v]. *)
Fixpoint mutate (r : Ref) (v : Vector3) (h : Heap) {struct h} : Heap :=
  match h, r with
  | [], _ => []
  | _ :: h', O => v :: h'
  | x :: h', S r' => x :: mutate r' v h'
  end.

(** [Vector3.clone]: [new Vector3(this.x, this.y, this.z)]. *)
Definition Vector3_clone (r : Ref) (h : Heap) : Ref * Heap :=
  alloc (deref h r) h.

(** The objects of a program in which the fish lives: the store and the
    reference held in [fish.position]. *)
Record Objects : Type := mkObjects {
  heap : Heap;
  fish_position : Ref
}.

(** [getPosition], exported as [getFishPosition]: returns
    [fish.position.clone()]. *)
Definition getPosition (o : Objects) : Ref * Objects :=
  let (r, h) := Vector3_clone (fish_position o) (heap o) in
  (r, mkObjects h (fish_position o)).

(** The caller mutating the vector it was given. *)
Definition caller_mutates (r : Ref) (v : Vector3) (o : Objects) : Objects :=
  mkObjects (mutate r v (heap o)) (fish_position o).

(** The store holds the transform of the fish of [w]: [fish.position] is an
    allocated object with the components the module state records. *)
Definition holds {C : Collaborators} (o : Objects) (w : World C) : Prop :=
  (fish_position o < length (heap o))%nat /\
  deref (heap o) (fish_position o) = position (fish w).

End Aliasing.

(** ** The frame driver of main.ts *)
Module Driver.

(** The functions that [run] calls. *)
Inductive Call : Type :=
| requestAnimationFrame_run
| updateTimeDelta
| updateStats
| updateOrbitControls
| updateWater
| updateBoat
| updateFisherman
| updateFishingLine
| updateBobber
| updateFish
| postitionReticle
| updateUI
| updateDebug
| renderer_render.

Section Run.

(** The application state and what each call does to it; [run] only
    sequences the calls.  [requestAnimationFrame(run)] registers the next
    frame and returns. *)
Variable App : Type.
Variable perform : Call -> App -> App.

Definition call (c : Call) (s : App * list Call) : App * list Call :=
  (perform c (fst s), snd s ++ [c]).

(** One tick: the body of [run], statement by statement, with the calls
    made so far recorded next to the state. *)
Definition run (a : App) : App * list Call :=
  let s := (a, []) in
  let s := call requestAnimationFrame_run s in
  let s := call updateTimeDelta s in
  let s := call updateStats s in
  let s := call updateOrbitControls s in
  let s := call updateWater s in
  let s := call updateBoat s in
  let s := call updateFisherman s in
  let s := call updateFishingLine s in
  let s := call updateBobber s in
  let s := call updateFish s in
  let s := call postitionReticle s in
  let s := call updateUI s in
  let s := call updateDebug s in
  call renderer_render s.

End Run.

(** The per-actor [update] entry points among the calls. *)
Definition is_actor_update (c : Call) : bool :=
  match c with
  | updateWater | updateBoat | updateFisherman | updateFishingLine
  | updateBobber | updateFish | updateUI => true
  | _ => false
  end.

End Driver.

(** ** A fixed choice of collaborators

    Used to evaluate the module on concrete inputs: the random helpers
    return their lower bound, the fish faces +z whatever its rotation, no
    clip ever ends or wraps. *)
Definition fixed : Collaborators := {|
  Rand := nat;
  getRandomFloat := fun lo _ g => (lo, S g);
  getRandomInt := fun lo _ g => (lo, S g);
  getDirection := fun a b =>
    vec3 (v_x b - v_x a) (v_y b - v_y a) (v_z b - v_z a);
  atan2 := fun _ _ => 0;
  getWorldDirection := fun _ => vec3 0 0 1;
  clipFinishes := fun _ _ => false;
  clipTime := fun a dt => action_time a + dt
|}.

(** A frame of 1/60 s with the fisherman at the origin and the bobber out
    on the water. *)
Definition still : Env := mkEnv (1 / 60) (vec3 0 0 0) (vec3 5 0 80).

(** The fish caught and one frame later: the flop timer is queued. *)
Definition flop_armed : World fixed :=
  steps [(still, Publish ON_FISH_CAUGHT); (still, Tick)] (@initial fixed 0%nat).

(** The fish biting and one frame later: the direction timer is queued. *)
Definition swimming_armed : World fixed :=
  steps [(still, Publish ON_FISH_FIGHT); (still, Tick)] (@initial fixed 0%nat).

(** The fisherman starting to reel, from the initial module state. *)
Definition reeled : World fixed :=
  steps [(still, Publish ON_FISHERMAN_FIGHT)] (@initial fixed 0%nat).

(** ** What holds of the fish in every run *)

(** The contract of [getRandomInt min max]: an integer between its
    bounds. *)
Definition getRandomInt_in_range (C : Collaborators) : Prop :=
  forall (lo hi : Z) (g : Rand),
    (lo <= hi)%Z -> (lo <= fst (getRandomInt lo hi g) <= hi)%Z.

Definition about_y_axis (r : Rotation) : Prop :=
  exists angle : R, r = rot_axisAngle (vec3 0 1 0) angle.

(** What each state tag comes with: the per-frame callback, the direction
    strategy and the kind of orientation that the receivers install
    together with the tag. *)
Definition mode_ok {C : Collaborators} (w : World C) : Prop :=
  match state_tag (state w) with
  | IDLE => state_onTick (state w) = None
  | SWIMMING =>
      state_onTick (state w) = Some tick_SWIMMING /\
      changeSwimDirectionCallback w = cb_AwayFisherman /\
      about_y_axis (rotation (fish w))
  | BEING_REELED =>
      state_onTick (state w) = Some tick_BEING_REELED /\
      changeSwimDirectionCallback w = cb_TowardFisherman /\
      about_y_axis (rotation (fish w))
  | FLOPPING =>
      state_onTick (state w) = Some tick_FLOPPING /\
      rotation (fish w) = rot_euler (degToRad (-90)) 0 0 /\
      swimDirectionChangeTimeoutId w = None
  end.

(** The timer discipline and the modes together. *)
Definition fish_ok {C : Collaborators} (w : World C) : Prop :=
  timers_ok w /\ mode_ok w.

Definition uniform (v : Vector3) : Prop := v_x v = v_y v /\ v_y v = v_z v.

(** The numbers a queued timeout was created with lie in the ranges the
    code passes to the random helpers. *)
Definition timeout_in_range (t : Timeout) : Prop :=
  match timer_body t with
  | body_changeSwimDirections => (300 <= timer_delay t <= 1000)%Z
  | body_flop speed nFlops =>
      (300 <= timer_delay t <= 3500)%Z /\
      0.3 <= speed <= 3 /\
      (1 <= nFlops <= 10)%Z
  end.

(** The receiver of each event installs one tag. *)
Definition target (e : Event) : FishStates :=
  match e with
  | RESET => IDLE
  | ON_FISH_FIGHT => SWIMMING
  | ON_FISHERMAN_FIGHT => BEING_REELED
  | ON_FISH_CAUGHT => FLOPPING
  end.

(** The timer side of the module state: queue, next handle, the two
    slots, the flop action and the playback speed. *)
Definition timer_state {C : Collaborators} (w : World C)
  : list Timeout * nat * option nat * option nat * AnimationAction * R :=
  (timers w, nextTimerId w, swimDirectionChangeTimeoutId w, flopTimeoutId w,
   flopAnimationAction w, flopPlaybackSpeed w).

(** Handles are not reused: queued timeouts have distinct handles, all
    below the next one to be given out; so have the slots; and a queued
    timeout that a slot names is of that slot's kind. *)
Definition handles_ok {C : Collaborators} (w : World C) : Prop :=
  NoDup (map timer_id (timers w)) /\
  (forall t, In t (timers w) -> (timer_id t < nextTimerId w)%nat) /\
  (forall k id, slot k w = Some id -> (id < nextTimerId w)%nat) /\
  (forall k t,
      In t (timers w) -> slot k w = Some (timer_id t) ->
      kind_of (timer_body t) = k).

Definition ranges_ok {C : Collaborators} (w : World C) : Prop :=
  (forall t, In t (timers w) -> timeout_in_range t) /\
  0.3 <= flopPlaybackSpeed w <= 3.

(** The timeout that [changeSwimDirections] or [flopRandomly] queues in
    [w] when the slot is empty. *)
Definition scheduled_timeout {C : Collaborators} (k : TimerKind)
  (w : World C) : Timeout :=
  match k with
  | DirectionChange =>
      mkTimeout (nextTimerId w) (fst (getRandomInt 300 1000 (rng w)))
        body_changeSwimDirections
  | Flop =>
      let delay := getRandomInt 300 3500 (rng w) in
      let speed := getRandomFloat 0.3 3 (snd delay) in
      let nFlops := getRandomInt 1 10 (snd speed) in
      mkTimeout (nextTimerId w) (fst delay)
        (body_flop (fst speed) (fst nFlops))
  end.

(** The handle in the direction-change slot is that of a queued
    direction-change timeout. *)
Definition direction_slot_live {C : Collaborators} (w : World C) : Prop :=
  forall id : nat,
    swimDirectionChangeTimeoutId w = Some id ->
    exists t : Timeout,
      In t (timers w) /\ timer_id t = id /\
      timer_body t = body_changeSwimDirections.

Definition both {C : Collaborators} (w : World C) : Prop :=
  handles_ok w /\ direction_slot_live w.

(** ** The clouds of cloud.ts

    A cloud [Mesh] is kept as its transform, the part that [update] and
    its helpers read and write; the texture and material that [setup]
    builds first do not enter it. *)
Module Cloud.

Definition minScale : R := 5000.
Definition maxScale : R := 50000.
Definition minHeight : R := 2000.
Definition maxHeight : R := 3000.
Definition disappearDistance : R := 100000.
Definition spawnWidth : R := 100000.
Definition minElevation : R := maxHeight * 2 + 1000.
Definition maxElevation : R := minElevation + 1000.

(** [MathUtils.clamp]: [Math.max(min, Math.min(max, value))]. *)
Definition clamp (value min max : R) : R := Rmax min (Rmin max value).

Definition set_position (p : Vector3) (m : Group) : Group :=
  mkGroup p (rotation m) (scale m).

Definition set_scale (s : Vector3) (m : Group) : Group :=
  mkGroup (position m) (rotation m) s.

Definition isNegativeScale (cloud : Group) : bool :=
  let s := scale cloud in
  if Rle_dec (v_x s) 1 then
    if Rle_dec (v_y s) 1 then
      if Rle_dec (v_z s) 1 then true else false
    else false
  else false.

(** [delta] is the frame time of [core/clock]. *)
Definition shrink (delta : R) (cloud : Group) : Group :=
  let shrinkAmt := 1000 * delta in
  let s := scale cloud in
  let newX := clamp (v_x s - shrinkAmt) 1 maxScale in
  let newY := clamp (v_y s - shrinkAmt) 1 maxHeight in
  let newZ := clamp (v_z s - shrinkAmt) 1 maxScale in
  set_scale (vec3 newX newY newZ) cloud.

Section Clouds.

Context {C : Collaborators}.

(** [MathUtils.randFloat] of three.js and [Vector3.applyQuaternion] with
    the object's own rotation, both outside the repository. *)
Variable randFloat : R -> R -> Rand -> R * Rand.
Variable applyQuaternion : Rotation -> Vector3 -> Vector3.

(** [Object3D.translateOnAxis]: the axis is turned by the object's
    rotation and the position moves along it. *)
Definition translateOnAxis (axis : Vector3) (distance : R) (m : Group)
  : Group :=
  set_position
    (addScaledVector (position m) (applyQuaternion (rotation m) axis)
       distance) m.

Definition translateX (distance : R) (m : Group) : Group :=
  translateOnAxis (vec3 1 0 0) distance m.

Definition translateY (distance : R) (m : Group) : Group :=
  translateOnAxis (vec3 0 1 0) distance m.

Definition initTransform (cloud : Group) (g : Rand) : Group * Rand :=
  let x := getRandomFloat (- disappearDistance / 2) (disappearDistance / 2)
             g in
  let y := getRandomFloat minElevation maxElevation (snd x) in
  let z := getRandomFloat (- spawnWidth) spawnWidth (snd y) in
  (mkGroup (vec3 (fst x) (fst y) (fst z))
     (rot_axisAngle (vec3 0 1 0) (degToRad (-33))) (scale cloud),
   snd z).

Definition randomizeScale (cloud : Group) (g : Rand) : Group * Rand :=
  let first := getRandomFloat minScale maxScale g in
  let coin := getRandomInt 0 1 (snd first) in
  let offset := getRandomFloat 50 1000 (snd coin) in
  let second :=
    if Z.eqb (fst coin) 0 then fst first + fst offset
    else fst first - fst offset in
  let height := getRandomFloat minHeight maxHeight (snd offset) in
  (set_scale (vec3 (fst first) (fst height) second) cloud, snd height).

Definition reset (cloud : Group) (g : Rand) : Group * Rand :=
  let x := randFloat 0 maxScale g in
  let y := randFloat minElevation maxElevation (snd x) in
  let z := randFloat (- spawnWidth) spawnWidth (snd y) in
  randomizeScale (set_position (vec3 (fst x) (fst y) (fst z)) cloud) (snd z).

(** The body of the loop of [update], for one cloud. *)
Definition update_cloud (delta : R) (cloud : Group) (g : Rand)
  : Group * Rand :=
  let c1 := translateX (-1000 * delta) cloud in
  let c2 := translateY (-50 * delta) c1 in
  let c3 :=
    if Rlt_dec (v_x (position c2)) (- disappearDistance / 2)
    then shrink delta c2 else c2 in
  if (if Rlt_dec (v_y (position c3)) 0 then true else isNegativeScale c3)
  then reset c3 g
  else (c3, g).

(** [update]: the loop over [clouds], in order. *)
Fixpoint update (delta : R) (clouds : list Group) (g : Rand)
  : list Group * Rand :=
  match clouds with
  | [] => ([], g)
  | cloud :: rest =>
      let r := update_cloud delta cloud g in
      let rs := update delta rest (snd r) in
      (fst r :: fst rs, snd rs)
  end.

(** The contract of [randFloat low high]: a number between its bounds. *)
Definition randFloat_in_range : Prop :=
  forall (lo hi : R) (g : Rand),
    lo <= hi -> lo <= fst (randFloat lo hi g) <= hi.

End Clouds.

(** A cloud is live when it is not below y = 0 and not shrunk away: what
    [update] tests before it resets a cloud. *)
Definition live (cloud : Group) : Prop :=
  0 <= v_y (position cloud) /\ isNegativeScale cloud = false.

End Cloud.

(** ** Startup in main.ts *)
Module Startup.

(** The calls of [main] and of [setup]. *)
Inductive Step : Type :=
| initFirebase | initScene | loadModels
| setupRenderer | setupCamera | setupResizeHandler | setupPointerHandler
| setupAim | setupControls | setupStats | setupSky | setupWater
| setupLights | setupUI | transmit_RESET
| run.

Inductive Seen : Type :=
| called (s : Step)
| console_error (s : Step).

(** The body of [setup], statement by statement. *)
Definition setup : list Step :=
  [setupRenderer; setupCamera; setupResizeHandler; setupPointerHandler;
   setupAim; setupControls; setupStats; setupSky; setupWater; setupLights;
   setupUI; transmit_RESET].

(** The body of [main]; [await loadModels()] is one step, which throws
    when the promise rejects. *)
Definition main_body : list Step :=
  [initFirebase; initScene; loadModels] ++ setup ++ [run].

(** Running statements in order until one throws; [throws s] says whether
    step [s] does.  The result is what was called and, if it came to that,
    the step whose error reached [catch]. *)
Fixpoint attempt (throws : Step -> bool) (body : list Step)
  : list Seen * option Step :=
  match body with
  | [] => ([], None)
  | s :: rest =>
      if throws s then ([called s], Some s)
      else let r := attempt throws rest in (called s :: fst r, snd r)
  end.

(** [main().catch((e) => console.error(e))]. *)
Definition main (throws : Step -> bool) : list Seen :=
  let r := attempt throws main_body in
  match snd r with
  | None => fst r
  | Some s => fst r ++ [console_error s]
  end.

End Startup.

(** The flop timeout of [flop_armed] having fired: the flop plays. *)
Definition flop_playing : World fixed :=
  steps [(still, Fire 1%nat)] flop_armed.

(** A bite while the flop timeout of [flop_armed] is still queued. *)
Definition bite_while_flop_armed : World fixed :=
  steps [(still, Publish ON_FISH_FIGHT)] flop_armed.

(** A fixed choice of the two collaborators of the clouds, and a cloud
    high up that has drifted past the shrink line. *)
Definition fixed_randFloat : R -> R -> nat -> R * nat :=
  fun lo _ g => (lo, S g).

Definition fixed_applyQuaternion : Rotation -> Vector3 -> Vector3 :=
  fun _ v => v.

Definition drifting_cloud : Group :=
  mkGroup (vec3 (-60000) 7000 0)
    (rot_axisAngle (vec3 0 1 0) (degToRad (-33))) (vec3 5000 2000 5050).

(** ** Proofs *)

Section Frames.

Context {C : Collaborators}.

(** Scheduling a direction change touches neither the transform, nor the
    state container, nor the trace. *)
Lemma changeSwimDirections_frame (w : World C) :
  fish (changeSwimDirections w) = fish w /\
  state (changeSwimDirections w) = state w /\
  trace (changeSwimDirections w) = trace w.
Proof.
  unfold changeSwimDirections.
  destruct (swimDirectionChangeTimeoutId w); repeat split; reflexivity.
Qed.

Lemma schedule_direction_if_absent_frame (w : World C) :
  let w1 :=
    match swimDirectionChangeTimeoutId w with
    | None => changeSwimDirections w
    | Some _ => w
    end in
  fish w1 = fish w /\ trace w1 = trace w /\ state w1 = state w.
Proof.
  destruct (changeSwimDirections_frame w) as (Hf & Hs & Ht).
  simpl. destruct (swimDirectionChangeTimeoutId w); auto.
Qed.

Lemma update_without_onTick (env : Env) (w : World C) :
  state_onTick (state w) = None -> update env w = w.
Proof. intros H. unfold update, State_update. rewrite H. reflexivity. Qed.

Lemma updates_without_onTick (envs : list Env) (w : World C) :
  state_onTick (state w) = None -> updates envs w = w.
Proof.
  intros H. induction envs as [|env envs IH]; simpl.
  - reflexivity.
  - rewrite (update_without_onTick env w H). exact IH.
Qed.

End Frames.

Lemma degToRad_nonneg (d : R) : 0 <= d -> 0 <= degToRad d.
Proof.
  intros Hd. unfold degToRad.
  pose proof PI_RGT_0 as HPI.
  apply Rmult_le_pos; lra.
Qed.

(** C6: [setFlopPlaybackSpeed s] stores 0.1 when s <= 0 and s itself when
    s > 0, so the stored playback speed is never <= 0. *)
Theorem C6_flop_playback_speed_clamped :
  forall (C : Collaborators) (s : R) (w : World C),
    (s <= 0 -> flopPlaybackSpeed (setFlopPlaybackSpeed s w) = 0.1) /\
    (s > 0 -> flopPlaybackSpeed (setFlopPlaybackSpeed s w) = s) /\
    ~ flopPlaybackSpeed (setFlopPlaybackSpeed s w) <= 0.
Proof.
  intros C s w. unfold setFlopPlaybackSpeed. simpl.
  destruct (Rle_dec s 0) as [Hle | Hgt]; repeat split; intros; lra.
Qed.

Lemma C6_flop_playback_speed_witness :
  flopPlaybackSpeed (setFlopPlaybackSpeed (-1) (@initial fixed 0%nat)) = 0.1
  /\ flopPlaybackSpeed (setFlopPlaybackSpeed 2 (@initial fixed 0%nat)) = 2.
Proof.
  split.
  - apply (proj1 (C6_flop_playback_speed_clamped fixed (-1) _)). lra.
  - apply (proj1 (proj2 (C6_flop_playback_speed_clamped fixed 2 _))). lra.
Defined.

(** C10: [moveBelowBobber] sets the x and z of the fish's position to the
    bobber's and keeps the fish's own y; the same holds of the position
    after the whole ON_FISH_FIGHT receiver has run. *)
Theorem C10_moveBelowBobber_keeps_y :
  forall (C : Collaborators) (env : Env) (w : World C),
    let below :=
      vec3 (v_x (bobberPosition env)) (v_y (position (fish w)))
        (v_z (bobberPosition env)) in
    position (fish (moveBelowBobber env w)) = below /\
    position (fish (receiver ON_FISH_FIGHT env w)) = below.
Proof.
  intros C env w below. split.
  - reflexivity.
  - reflexivity.
Qed.

(** C8: the RESET receiver puts the fish at (0, 2, 50), gives it a uniform
    scale drawn with [getRandomFloat 2 5], turns it with [lookAt] toward
    the fisherman from that position, and sets the state to IDLE with a
    null callback; any number of updates after that leave the module
    state, and so the transform, as they found it. *)
Theorem C8_reset_places_idle_fish :
  forall (C : Collaborators) (env : Env) (w : World C),
    let w' := transmit RESET env w in
    position (fish w') = vec3 0 2 50 /\
    (let s := fst (getRandomFloat 2 5 (rng w)) in
     scale (fish w') = vec3 s s s) /\
    rotation (fish w') = rot_lookAt (vec3 0 2 50) (fishermanPosition env) /\
    state w' = mkState IDLE None /\
    getState w' = IDLE /\
    forall envs : list Env, updates envs w' = w'.
Proof.
  intros C env w w'.
  assert (Hst : state w' = mkState IDLE None) by reflexivity.
  repeat (split; [reflexivity|]).
  intros envs. apply updates_without_onTick. rewrite Hst. reflexivity.
Qed.

(** C5: a direction change away from the fisherman turns the fish about
    the y axis to the angle of the away-vector plus an offset within
    +-90 degrees; one toward the fisherman, to the angle of the
    toward-vector plus an offset within +-22.5 degrees.  The bounds are
    those the code passes to [getRandomFloat], whose result is taken to lie
    between its arguments. *)
Theorem C5_direction_offset_bounds :
  forall (C : Collaborators),
    getRandomFloat_in_range C ->
    forall (env : Env) (w : World C),
      (let away := getDirection (fishermanPosition env) (getPosition w) in
       exists offset : R,
         rotation (fish (setSwimDirection_AwayFisherman env w))
         = rot_axisAngle (vec3 0 1 0)
             (atan2 (v_x away) (v_z away) + offset) /\
         - degToRad 90 <= offset <= degToRad 90) /\
      (let toward := getDirection (getPosition w) (fishermanPosition env) in
       exists offset : R,
         rotation (fish (setSwimDirection_TowardFisherman env w))
         = rot_axisAngle (vec3 0 1 0)
             (atan2 (v_x toward) (v_z toward) + offset) /\
         - degToRad 22.5 <= offset <= degToRad 22.5).
Proof.
  intros C Hrange env w. split; intros base.
  - assert (H90 : degToRad (180 / 2) = degToRad 90)
      by (unfold degToRad; lra).
    pose proof (degToRad_nonneg 90 ltac:(lra)) as Hpos.
    pose proof (Hrange (- degToRad 90) (degToRad 90) (rng w) ltac:(lra))
      as Hin.
    unfold setSwimDirection_AwayFisherman. rewrite H90.
    destruct (getRandomFloat (- degToRad 90) (degToRad 90) (rng w))
      as [offset g].
    exists offset. split; [reflexivity | exact Hin].
  - assert (H22 : degToRad (45 / 2) = degToRad 22.5)
      by (unfold degToRad; lra).
    pose proof (degToRad_nonneg 22.5 ltac:(lra)) as Hpos.
    pose proof (Hrange (- degToRad 22.5) (degToRad 22.5) (rng w) ltac:(lra))
      as Hin.
    unfold setSwimDirection_TowardFisherman. rewrite H22.
    destruct (getRandomFloat (- degToRad 22.5) (degToRad 22.5) (rng w))
      as [offset g].
    exists offset. split; [reflexivity | exact Hin].
Qed.

Lemma fixed_getRandomFloat_in_range : getRandomFloat_in_range fixed.
Proof. intros lo hi g Hle. simpl. lra. Qed.

Lemma C5_direction_offset_witness :
  getRandomFloat_in_range fixed /\
  exists offset : R,
    rotation (fish (setSwimDirection_AwayFisherman still reeled))
    = rot_axisAngle (vec3 0 1 0)
        (@atan2 fixed
           (v_x (@getDirection fixed (fishermanPosition still)
                   (getPosition reeled)))
           (v_z (@getDirection fixed (fishermanPosition still)
                   (getPosition reeled))) + offset) /\
    - degToRad 90 <= offset <= degToRad 90.
Proof.
  split.
  - exact fixed_getRandomFloat_in_range.
  - exact (proj1 (C5_direction_offset_bounds fixed
                    fixed_getRandomFloat_in_range still reeled)).
Defined.

(** C7: one tick of [run] calls the per-actor updates in the order water,
    boat, fisherman, fishing line, bobber, fish, UI, whatever the calls do:
    the state after the tick is the one obtained by performing the
    fourteen calls of the body one after the other, each on the state the
    one before left, and the calls recorded are those fourteen in that
    order. *)
Theorem C7_update_order :
  forall (App : Type) (perform : Driver.Call -> App -> App) (a : App),
    fst (Driver.run App perform a)
    = perform Driver.renderer_render
        (perform Driver.updateDebug
        (perform Driver.updateUI
        (perform Driver.postitionReticle
        (perform Driver.updateFish
        (perform Driver.updateBobber
        (perform Driver.updateFishingLine
        (perform Driver.updateFisherman
        (perform Driver.updateBoat
        (perform Driver.updateWater
        (perform Driver.updateOrbitControls
        (perform Driver.updateStats
        (perform Driver.updateTimeDelta
        (perform Driver.requestAnimationFrame_run a))))))))))))) /\
    filter Driver.is_actor_update (snd (Driver.run App perform a))
    = [Driver.updateWater; Driver.updateBoat; Driver.updateFisherman;
       Driver.updateFishingLine; Driver.updateBobber; Driver.updateFish;
       Driver.updateUI] /\
    snd (Driver.run App perform a)
    = [Driver.requestAnimationFrame_run; Driver.updateTimeDelta;
       Driver.updateStats; Driver.updateOrbitControls; Driver.updateWater;
       Driver.updateBoat; Driver.updateFisherman; Driver.updateFishingLine;
       Driver.updateBobber; Driver.updateFish; Driver.postitionReticle;
       Driver.updateUI; Driver.updateDebug; Driver.renderer_render].
Proof. intros App perform a. repeat split; reflexivity. Qed.

Section Heaps.

Import Aliasing.

Lemma mutate_length (r : Ref) (v : Vector3) (h : Heap) :
  length (mutate r v h) = length h.
Proof.
  revert r. induction h as [|x h IH]; intros r; simpl.
  - reflexivity.
  - destruct r; simpl; [reflexivity | now rewrite IH].
Qed.

Lemma mutate_other (r r' : Ref) (v : Vector3) (h : Heap) :
  r <> r' -> deref (mutate r v h) r' = deref h r'.
Proof.
  unfold deref. revert r r'. induction h as [|x h IH]; intros r r' Hne; simpl.
  - reflexivity.
  - destruct r as [|r]; destruct r' as [|r']; simpl; try reflexivity.
    + contradiction.
    + apply IH. intros E. apply Hne. now f_equal.
Qed.

Lemma deref_alloc_old (v : Vector3) (h : Heap) (r : Ref) :
  (r < length h)%nat -> deref (snd (alloc v h)) r = deref h r.
Proof. intros Hlt. unfold deref, alloc. simpl. now apply app_nth1. Qed.

Lemma deref_alloc_new (v : Vector3) (h : Heap) :
  deref (snd (alloc v h)) (fst (alloc v h)) = v.
Proof.
  unfold deref, alloc. simpl.
  rewrite app_nth2 by lia. now rewrite Nat.sub_diag.
Qed.

End Heaps.

(** C9: [getPosition] returns a new [Vector3] with the components of the
    fish's position: the reference it returns is not the one held in
    [fish.position], and whatever the caller then writes into the returned
    vector, the store still holds the same transform for the fish. *)
Theorem C9_getPosition_returns_copy :
  forall (C : Collaborators) (w : World C) (o : Aliasing.Objects),
    Aliasing.holds o w ->
    let r := fst (Aliasing.getPosition o) in
    let o' := snd (Aliasing.getPosition o) in
    r <> Aliasing.fish_position o' /\
    Aliasing.deref (Aliasing.heap o') r = getPosition w /\
    Aliasing.holds o' w /\
    forall v : Vector3,
      Aliasing.holds (Aliasing.caller_mutates r v o') w /\
      Aliasing.deref (Aliasing.heap (Aliasing.caller_mutates r v o'))
        (Aliasing.fish_position o')
      = Aliasing.deref (Aliasing.heap o) (Aliasing.fish_position o).
Proof.
  intros C w [h p] [Hlt Hval]. simpl in Hlt, Hval.
  unfold Aliasing.getPosition, Aliasing.Vector3_clone. simpl.
  assert (Hne : length h <> p) by lia.
  assert (Hold : Aliasing.deref (h ++ [Aliasing.deref h p]) p
                 = Aliasing.deref h p).
  { exact (deref_alloc_old (Aliasing.deref h p) h p Hlt). }
  split; [exact Hne|].
  split.
  { unfold getPosition. rewrite <- Hval.
    exact (deref_alloc_new (Aliasing.deref h p) h). }
  split.
  { split; simpl.
    - rewrite length_app. simpl. lia.
    - now rewrite Hold. }
  intros v. unfold Aliasing.holds, Aliasing.caller_mutates. simpl.
  rewrite mutate_length, length_app, (mutate_other _ _ _ _ Hne), Hold.
  simpl. repeat split; [lia | exact Hval].
Qed.

Lemma C9_getPosition_copy_witness :
  Aliasing.holds (Aliasing.mkObjects [vec3 1 1 1; vec3 0 0 0] 1%nat)
    (@initial fixed 0%nat) /\
  Aliasing.deref
    (Aliasing.heap
       (Aliasing.caller_mutates 2%nat (vec3 7 8 9)
          (snd (Aliasing.getPosition
                  (Aliasing.mkObjects [vec3 1 1 1; vec3 0 0 0] 1%nat)))))
    1%nat
  = vec3 0 0 0.
Proof.
  assert (H : Aliasing.holds (Aliasing.mkObjects [vec3 1 1 1; vec3 0 0 0] 1%nat)
                (@initial fixed 0%nat)).
  { split; simpl; [lia | reflexivity]. }
  split; [exact H|].
  exact (proj2 (proj2 (proj2 (proj2
           (C9_getPosition_returns_copy fixed _ _ H))) (vec3 7 8 9))).
Defined.

Section Catch.

Context {C : Collaborators}.

Lemma transmit_caught_frame (env : Env) (w : World C) :
  trace (transmit ON_FISH_CAUGHT env w)
  = trace w ++ [obs_transmit ON_FISH_CAUGHT] /\
  position (fish (transmit ON_FISH_CAUGHT env w)) = position (fish w).
Proof.
  unfold transmit, receiver, cancelChangeSwimDirections. simpl.
  destruct (swimDirectionChangeTimeoutId w); split; reflexivity.
Qed.

(** The position at which [while_BEING_REELED] measures the distance: the
    one the fish has after [swimForward]. *)
Lemma while_BEING_REELED_position (env : Env) (w : World C) :
  getPosition (while_BEING_REELED env w)
  = addScaledVector (getPosition w) (getWorldDirection (rotation (fish w)))
      (swimSpeed * delta env).
Proof.
  unfold while_BEING_REELED, checkDistance, getPosition.
  destruct (schedule_direction_if_absent_frame w) as (Hf & _ & _).
  simpl in Hf.
  set (w1 := match swimDirectionChangeTimeoutId w with
             | None => changeSwimDirections w
             | Some _ => w
             end) in *.
  destruct (Rlt_dec _ _).
  - rewrite (proj2 (transmit_caught_frame env (swimForward env w1))).
    unfold swimForward. simpl. now rewrite Hf.
  - unfold swimForward. simpl. now rewrite Hf.
Qed.

End Catch.

(** C2: in BEING_REELED, [update] moves the fish forward and then compares
    the Euclidean distance from the fish to the fisherman with 30: below
    30 the update transmits ON_FISH_CAUGHT once and nothing else, at 30 or
    above it transmits nothing.  The distance is the one the code measures,
    at the position the fish has once the frame's forward movement is
    done. *)
Theorem C2_catch_trigger :
  forall (C : Collaborators) (env : Env) (w : World C),
    state w = mkState BEING_REELED (Some tick_BEING_REELED) ->
    let w' := update env w in
    let distance := distanceTo (getPosition w') (fishermanPosition env) in
    getPosition w'
    = addScaledVector (getPosition w) (getWorldDirection (rotation (fish w)))
        (swimSpeed * delta env) /\
    (distance < 30 -> trace w' = trace w ++ [obs_transmit ON_FISH_CAUGHT]) /\
    (distance >= 30 -> trace w' = trace w).
Proof.
  intros C env w Hstate w' distance.
  assert (Hw' : w' = while_BEING_REELED env w).
  { unfold w', update, State_update. rewrite Hstate. reflexivity. }
  pose proof (while_BEING_REELED_position env w) as Hpos.
  split; [rewrite Hw'; exact Hpos|].
  unfold distance. clear distance. rewrite Hw'. clear Hw' w'.
  destruct (schedule_direction_if_absent_frame w) as (Hf & Ht & _).
  simpl in Hf, Ht.
  unfold while_BEING_REELED in *.
  set (w1 := match swimDirectionChangeTimeoutId w with
             | None => changeSwimDirections w
             | Some _ => w
             end) in *.
  assert (Htr : trace (swimForward env w1) = trace w) by exact Ht.
  unfold checkDistance in *.
  destruct (Rlt_dec (distanceTo (getPosition (swimForward env w1))
                       (fishermanPosition env)) 30) as [Hlt | Hge].
  - destruct (transmit_caught_frame env (swimForward env w1)) as [Htc Hpc].
    split; intros Hd.
    + now rewrite Htc, Htr.
    + exfalso. unfold getPosition in Hd, Hlt. rewrite Hpc in Hd. lra.
  - split; intros Hd.
    + exfalso. lra.
    + exact Htr.
Qed.

Lemma sqrt_of_square (x : R) : 0 <= x -> sqrt (x * x) = x.
Proof. intros Hx. now apply sqrt_square. Qed.

(** The distance the frozen fish of [reeled], at the origin, is from a
    fisherman on the z axis. *)
Lemma reeled_distance (z : R) :
  0 <= z ->
  distanceTo (getPosition (update (mkEnv 0 (vec3 0 0 z) (vec3 5 0 80)) reeled))
    (vec3 0 0 z) = z.
Proof.
  intros Hz.
  change (update (mkEnv 0 (vec3 0 0 z) (vec3 5 0 80)) reeled)
    with (while_BEING_REELED (mkEnv 0 (vec3 0 0 z) (vec3 5 0 80)) reeled).
  rewrite while_BEING_REELED_position.
  unfold distanceTo, distanceToSquared, addScaledVector, swimSpeed. simpl.
  rewrite <- (sqrt_of_square z Hz) at 3. f_equal. ring.
Qed.

Lemma C2_catch_trigger_witness :
  state reeled = mkState BEING_REELED (Some tick_BEING_REELED) /\
  trace (update (mkEnv 0 (vec3 0 0 50) (vec3 5 0 80)) reeled)
  = trace reeled /\
  trace (update (mkEnv 0 (vec3 0 0 10) (vec3 5 0 80)) reeled)
  = trace reeled ++ [obs_transmit ON_FISH_CAUGHT].
Proof.
  split; [reflexivity|]. split.
  - apply (proj2 (proj2 (C2_catch_trigger fixed
                           (mkEnv 0 (vec3 0 0 50) (vec3 5 0 80)) reeled
                           eq_refl))).
    simpl fishermanPosition. rewrite (reeled_distance 50); lra.
  - apply (proj1 (proj2 (C2_catch_trigger fixed
                           (mkEnv 0 (vec3 0 0 10) (vec3 5 0 80)) reeled
                           eq_refl))).
    simpl fishermanPosition. rewrite (reeled_distance 10); lra.
Defined.

(** ** The timer discipline *)

Section Lists.

Variable A : Type.

Lemma filter_length_le (p : A -> bool) (l : list A) :
  (length (filter p l) <= length l)%nat.
Proof.
  induction l as [|x l IH]; simpl; [lia|].
  destruct (p x); simpl; lia.
Qed.

Lemma filter_swap (p q : A -> bool) (l : list A) :
  filter p (filter q l) = filter q (filter p l).
Proof.
  induction l as [|x l IH]; simpl; [reflexivity|].
  destruct (p x) eqn:Hp, (q x) eqn:Hq; simpl;
    rewrite ?Hp, ?Hq, IH; reflexivity.
Qed.

Lemma at_most_one_is_it (x : A) (l : list A) :
  In x l -> (length l <= 1)%nat -> l = [x].
Proof.
  destruct l as [|y [|z l]]; simpl; intros Hin Hlen.
  - contradiction.
  - destruct Hin as [-> | []]. reflexivity.
  - lia.
Qed.

Lemma nothing_in_nil (l : list A) : (forall x, In x l -> False) -> l = [].
Proof.
  destruct l as [|x l]; intros H; [reflexivity|].
  exfalso. apply (H x). now left.
Qed.

End Lists.

Section Discipline.

Context {C : Collaborators}.

Lemma timers_ok_view (w w' : World C) :
  timer_view w' = timer_view w -> timers_ok w -> timers_ok w'.
Proof.
  unfold timer_view. intros Hv. injection Hv as Ht Hd Hf Ha.
  unfold timers_ok, pending.
  assert (Hslot : forall k, slot k w' = slot k w)
    by (intros []; simpl; assumption).
  rewrite Ht, Hf, Ha. intros (H1 & H2 & H3).
  split; [|split]; try assumption.
  intros k t Hin. rewrite Hslot. now apply H1.
Qed.

Lemma pending_empty_slot (k : TimerKind) (w : World C) :
  timers_ok w -> slot k w = None -> pending k w = [].
Proof.
  intros (H1 & _) Hnone. apply nothing_in_nil. intros t Hin.
  specialize (H1 k t Hin). congruence.
Qed.

Lemma of_kind_not_id (k : TimerKind) (id : nat) (ts : list Timeout) :
  of_kind k (filter (not_id id) ts) = filter (not_id id) (of_kind k ts).
Proof. unfold of_kind. apply filter_swap. Qed.

(** Dropping the timeout a slot names empties that kind's queue. *)
Lemma cleared_kind_empty (k : TimerKind) (w : World C) :
  timers_ok w -> of_kind k (cleared (slot k w) w) = [].
Proof.
  intros Hok. unfold cleared. destruct (slot k w) as [id|] eqn:Hs.
  - rewrite of_kind_not_id. apply nothing_in_nil. intros t Hin.
    apply filter_In in Hin. destruct Hin as [Hin Hne].
    destruct Hok as (H1 & _).
    specialize (H1 k t Hin). rewrite Hs in H1. injection H1 as ->.
    unfold not_id in Hne. rewrite Nat.eqb_refl in Hne. discriminate.
  - exact (pending_empty_slot k w Hok Hs).
Qed.

Lemma cleared_subset (k : TimerKind) (h : option nat) (w : World C)
  (t : Timeout) :
  In t (of_kind k (cleared h w)) -> In t (pending k w).
Proof.
  unfold cleared. destruct h as [id|]; [|trivial].
  rewrite of_kind_not_id. intros Hin. apply filter_In in Hin. tauto.
Qed.

Lemma cleared_length (k : TimerKind) (h : option nat) (w : World C) :
  (length (of_kind k (cleared h w)) <= length (pending k w))%nat.
Proof.
  unfold cleared. destruct h as [id|]; [|unfold pending; lia].
  rewrite of_kind_not_id. apply filter_length_le.
Qed.

Lemma pending_cancelChangeSwimDirections (k : TimerKind) (w : World C) :
  pending k (cancelChangeSwimDirections w)
  = of_kind k (cleared (slot DirectionChange w) w).
Proof. reflexivity. Qed.

Lemma pending_cancelFlop (k : TimerKind) (w : World C) :
  pending k (cancelFlop w) = of_kind k (cleared (slot Flop w) w).
Proof. reflexivity. Qed.

Lemma cancelChangeSwimDirections_ok (w : World C) :
  timers_ok w -> timers_ok (cancelChangeSwimDirections w).
Proof.
  intros Hok. pose proof Hok as (H1 & H2 & H3).
  pose proof (cleared_kind_empty DirectionChange w Hok) as Hempty.
  split; [|split].
  - intros k t. rewrite pending_cancelChangeSwimDirections. intros Hin.
    destruct k.
    + rewrite Hempty in Hin. contradiction.
    + apply (H1 Flop t). exact (cleared_subset Flop _ w t Hin).
  - intros k. rewrite pending_cancelChangeSwimDirections.
    pose proof (cleared_length k (slot DirectionChange w) w) as Hlen.
    specialize (H2 k). lia.
  - intros Hrun. destruct (H3 Hrun) as [Hnil Hslot]. split; [|exact Hslot].
    rewrite pending_cancelChangeSwimDirections.
    apply nothing_in_nil. intros t Hin.
    pose proof (cleared_subset Flop _ w t Hin) as Hin'.
    rewrite Hnil in Hin'. contradiction.
Qed.

Lemma cancelFlop_ok (w : World C) : timers_ok w -> timers_ok (cancelFlop w).
Proof.
  intros Hok. pose proof Hok as (H1 & H2 & H3).
  pose proof (cleared_kind_empty Flop w Hok) as Hempty.
  split; [|split].
  - intros k t. rewrite pending_cancelFlop. intros Hin.
    destruct k.
    + apply (H1 DirectionChange t).
      exact (cleared_subset DirectionChange _ w t Hin).
    + rewrite Hempty in Hin. contradiction.
  - intros k. rewrite pending_cancelFlop.
    pose proof (cleared_length k (slot Flop w) w) as Hlen.
    specialize (H2 k). lia.
  - unfold action_running. simpl. discriminate.
Qed.

Lemma of_kind_app (k : TimerKind) (l l' : list Timeout) :
  of_kind k (l ++ l') = of_kind k l ++ of_kind k l'.
Proof. unfold of_kind. apply filter_app. Qed.

(** What scheduling does when the slot is empty: one timeout of that kind
    joins the queue and the slot names it. *)
Lemma schedule_absent (k : TimerKind) (w : World C) :
  slot k w = None ->
  exists t : Timeout,
    kind_of (timer_body t) = k /\
    timers (schedule k w) = timers w ++ [t] /\
    slot k (schedule k w) = Some (timer_id t) /\
    (forall k', k' <> k -> slot k' (schedule k w) = slot k' w) /\
    flopAnimationAction (schedule k w) = flopAnimationAction w.
Proof.
  destruct k; simpl; intros Hs.
  - unfold changeSwimDirections. rewrite Hs.
    eexists. repeat split; try reflexivity.
    intros []; [congruence | reflexivity].
  - unfold flopRandomly. rewrite Hs.
    eexists. repeat split; try reflexivity.
    intros []; [reflexivity | congruence].
Qed.

(** What it does when the slot is occupied: nothing. *)
Lemma schedule_present (k : TimerKind) (w : World C) :
  slot k w <> None -> schedule k w = w.
Proof.
  destruct k; simpl; intros Hs.
  - unfold changeSwimDirections.
    destruct (swimDirectionChangeTimeoutId w); congruence.
  - unfold flopRandomly. destruct (flopTimeoutId w); congruence.
Qed.

Lemma schedule_occupies (k : TimerKind) (w : World C) :
  slot k (schedule k w) <> None.
Proof.
  destruct (slot k w) as [id|] eqn:Hs.
  - rewrite schedule_present; congruence.
  - destruct (schedule_absent k w Hs) as (t & _ & _ & Hslot & _).
    congruence.
Qed.

Lemma schedule_twice (k : TimerKind) (w : World C) :
  schedule k (schedule k w) = schedule k w.
Proof. apply schedule_present, schedule_occupies. Qed.

Lemma TimerKind_eqb_eq (a b : TimerKind) :
  TimerKind_eqb a b = true <-> a = b.
Proof. destruct a, b; simpl; split; congruence. Qed.

Lemma of_kind_one (k : TimerKind) (t : Timeout) :
  of_kind k [t] = if TimerKind_eqb (kind_of (timer_body t)) k then [t] else [].
Proof. reflexivity. Qed.

Lemma schedule_ok (k : TimerKind) (w : World C) :
  timers_ok w -> timers_ok (schedule k w).
Proof.
  intros Hok. destruct (slot k w) as [id|] eqn:Hs.
  { rewrite schedule_present; congruence. }
  pose proof Hok as (H1 & H2 & H3).
  pose proof (pending_empty_slot k w Hok Hs) as Hnil.
  destruct (schedule_absent k w Hs) as (t & Hk & Ht & Hslot & Hother & Ha).
  assert (Hp : forall k', pending k' (schedule k w)
                          = pending k' w ++ of_kind k' [t]).
  { intros k'. unfold pending. fold (of_kind k' (timers (schedule k w))).
    rewrite Ht. apply of_kind_app. }
  assert (Hsame : of_kind k [t] = [t]).
  { rewrite of_kind_one, Hk.
    now rewrite (proj2 (TimerKind_eqb_eq k k) eq_refl). }
  assert (Hdiff : forall k', k' <> k -> of_kind k' [t] = []).
  { intros k' Hne. rewrite of_kind_one, Hk.
    destruct (TimerKind_eqb k k') eqn:E; [|reflexivity].
    apply TimerKind_eqb_eq in E. congruence. }
  assert (Hdec : forall k', k' = k \/ k' <> k)
    by (intros k'; destruct k', k; (now left) || (right; discriminate)).
  split; [|split].
  - intros k' t' Hin. rewrite Hp in Hin.
    destruct (Hdec k') as [-> | Hne].
    + rewrite Hnil, Hsame in Hin. destruct Hin as [<- | []]. exact Hslot.
    + rewrite (Hdiff k' Hne), app_nil_r in Hin.
      rewrite (Hother k' Hne). now apply H1.
  - intros k'. rewrite Hp.
    destruct (Hdec k') as [-> | Hne].
    + rewrite Hnil, Hsame. simpl. lia.
    + rewrite (Hdiff k' Hne), app_nil_r. apply H2.
  - rewrite Ha. intros Hrun. destruct (H3 Hrun) as [Hflop Hocc].
    destruct k.
    + rewrite Hp, (Hdiff Flop ltac:(discriminate)), app_nil_r.
      split; [exact Hflop|].
      change (slot Flop (schedule DirectionChange w) <> None).
      rewrite (Hother Flop ltac:(discriminate)). exact Hocc.
    + simpl in Hs. congruence.
Qed.

Lemma animationMixer_update_ok (dt : R) (w : World C) :
  timers_ok w -> timers_ok (animationMixer_update dt w).
Proof.
  intros Hok. pose proof Hok as (H1 & H2 & H3).
  unfold animationMixer_update.
  destruct (action_running (flopAnimationAction w)) eqn:Hrun; [|exact Hok].
  destruct (H3 eq_refl) as [Hnil Hocc].
  destruct (clipFinishes (flopAnimationAction w) dt) eqn:Hfin.
  - split; [|split].
    + intros [] t Hin.
      * exact (H1 DirectionChange t Hin).
      * change (In t (pending Flop w)) in Hin.
        rewrite Hnil in Hin. contradiction.
    + intros k. exact (H2 k).
    + unfold action_running. simpl. rewrite andb_false_r. discriminate.
  - split; [|split].
    + exact H1.
    + exact H2.
    + intros _. split; assumption.
Qed.

Lemma call_changeSwimDirectionCallback_view (env : Env) (w : World C) :
  timer_view (call_changeSwimDirectionCallback env w) = timer_view w /\
  trace (call_changeSwimDirectionCallback env w) = trace w.
Proof.
  unfold call_changeSwimDirectionCallback.
  destruct (changeSwimDirectionCallback w); split; reflexivity.
Qed.

Lemma run_body_frame (env : Env) (b : TimerBody) (w : World C) :
  timers (run_body env b w) = timers w /\
  trace (run_body env b w) = trace w.
Proof.
  destruct b; simpl.
  - destruct (call_changeSwimDirectionCallback_view env w) as [Hv Ht].
    unfold timer_view in Hv. injection Hv as Hts _ _ _.
    split; assumption.
  - split; reflexivity.
Qed.

Lemma find_id_spec (id : nat) (ts : list Timeout) (t : Timeout) :
  find (fun t => Nat.eqb (timer_id t) id) ts = Some t ->
  In t ts /\ timer_id t = id.
Proof.
  intros H. apply find_some in H. destruct H as [Hin Heq].
  split; [exact Hin | now apply Nat.eqb_eq].
Qed.

Lemma find_id_cleared (id : nat) (ts : list Timeout) :
  find (fun t => Nat.eqb (timer_id t) id) (filter (not_id id) ts) = None.
Proof.
  induction ts as [|t ts IH]; simpl; [reflexivity|].
  unfold not_id at 1. destruct (Nat.eqb (timer_id t) id) eqn:E; simpl.
  - exact IH.
  - rewrite E. exact IH.
Qed.

Lemma fire_ok (env : Env) (id : nat) (w : World C) :
  timers_ok w -> timers_ok (fire env id w).
Proof.
  intros Hok. pose proof Hok as (H1 & H2 & H3).
  unfold fire.
  destruct (find (fun t => Nat.eqb (timer_id t) id) (timers w))
    as [t|] eqn:Hfind; [|exact Hok].
  destruct (find_id_spec id (timers w) t Hfind) as [Hin Hid].
  set (w1 := log (obs_timeout id (timer_body t)) (clearTimeout (Some id) w)).
  assert (Hp1 : forall k, pending k w1 = filter (not_id id) (pending k w)).
  { intros k. exact (of_kind_not_id k id (timers w)). }
  assert (Hmine : In t (pending (kind_of (timer_body t)) w)).
  { apply filter_In. split; [exact Hin|]. now apply TimerKind_eqb_eq. }
  assert (Hgone : pending (kind_of (timer_body t)) w1 = []).
  { rewrite Hp1, (at_most_one_is_it _ t _ Hmine (H2 _)). simpl.
    unfold not_id. rewrite Hid, Nat.eqb_refl. reflexivity. }
  assert (Hsub : forall k t', In t' (pending k w1) -> In t' (pending k w)).
  { intros k t'. rewrite Hp1. intros H. apply filter_In in H. tauto. }
  assert (Hlen : forall k, (length (pending k w1) <= 1)%nat).
  { intros k. rewrite Hp1.
    pose proof (filter_length_le _ (not_id id) (pending k w)).
    specialize (H2 k). lia. }
  destruct (timer_body t) as [|speed nFlops] eqn:Hbody; simpl in Hgone.
  - destruct (call_changeSwimDirectionCallback_view env w1) as [Hv _].
    apply (timers_ok_view
             (set_swimDirectionChangeTimeoutId None w1)).
    { unfold timer_view in *. simpl. injection Hv as Ha Hb Hc Hd.
      now rewrite Ha, Hc, Hd. }
    split; [|split].
    + intros [] t' Hin'.
      * change (In t' (pending DirectionChange w1)) in Hin'.
        rewrite Hgone in Hin'. contradiction.
      * apply (H1 Flop t'). apply Hsub. exact Hin'.
    + exact Hlen.
    + intros Hrun. destruct (H3 Hrun) as [Hnil Hocc]. split; [|exact Hocc].
      apply nothing_in_nil. intros t' Hin'.
      apply (Hsub Flop) in Hin'. rewrite Hnil in Hin'. contradiction.
  - split; [|split].
    + intros [] t' Hin'.
      * apply (H1 DirectionChange t'). apply Hsub. exact Hin'.
      * change (In t' (pending Flop w1)) in Hin'.
        rewrite Hgone in Hin'. contradiction.
    + exact Hlen.
    + intros _. split; [exact Hgone|].
      simpl in Hmine.
      change (slot Flop w <> None). rewrite (H1 Flop t Hmine). discriminate.
Qed.

Lemma receiver_ok (e : Event) (env : Env) (w : World C) :
  timers_ok w -> timers_ok (receiver e env w).
Proof.
  intros Hok. destruct e.
  - apply (timers_ok_view (cancelFlop w)); [reflexivity|].
    now apply cancelFlop_ok.
  - apply (timers_ok_view (cancelChangeSwimDirections w)); [reflexivity|].
    now apply cancelChangeSwimDirections_ok.
  - apply (timers_ok_view (cancelChangeSwimDirections w)); [reflexivity|].
    now apply cancelChangeSwimDirections_ok.
  - apply (timers_ok_view (cancelChangeSwimDirections w)); [reflexivity|].
    now apply cancelChangeSwimDirections_ok.
Qed.

Lemma transmit_ok (e : Event) (env : Env) (w : World C) :
  timers_ok w -> timers_ok (transmit e env w).
Proof.
  intros Hok. unfold transmit. apply receiver_ok.
  now apply (timers_ok_view w).
Qed.

Lemma schedule_if_absent_ok (k : TimerKind) (w : World C) :
  timers_ok w ->
  timers_ok match slot k w with
            | None => schedule k w
            | Some _ => w
            end.
Proof.
  intros Hok. destruct (slot k w); [exact Hok | now apply schedule_ok].
Qed.

Lemma update_ok (env : Env) (w : World C) :
  timers_ok w -> timers_ok (update env w).
Proof.
  intros Hok. unfold update, State_update.
  destruct (state_onTick (state w)) as [[]|]; simpl; [| | |exact Hok].
  - unfold while_SWIMMING.
    pose proof (schedule_if_absent_ok DirectionChange w Hok) as H1.
    simpl in H1. revert H1. apply timers_ok_view. reflexivity.
  - unfold while_BEING_REELED, checkDistance.
    pose proof (schedule_if_absent_ok DirectionChange w Hok) as H1.
    simpl in H1.
    set (w1 := match swimDirectionChangeTimeoutId w with
               | None => changeSwimDirections w
               | Some _ => w
               end) in *.
    assert (H2 : timers_ok (swimForward env w1)).
    { revert H1. apply timers_ok_view. reflexivity. }
    destruct (Rlt_dec _ _); [now apply transmit_ok | exact H2].
  - unfold while_FLOPPING.
    pose proof (schedule_if_absent_ok Flop w Hok) as H1. simpl in H1.
    now apply animationMixer_update_ok.
Qed.

Lemma step_ok (env : Env) (a : Action) (w : World C) :
  timers_ok w -> timers_ok (step env a w).
Proof.
  intros Hok. destruct a; simpl.
  - now apply transmit_ok.
  - now apply update_ok.
  - now apply fire_ok.
Qed.

Lemma initial_ok (g : Rand) : timers_ok (initial g).
Proof.
  split; [|split].
  - intros k t Hin. destruct k; contradiction.
  - intros k. destruct k; simpl; lia.
  - unfold action_running. simpl. discriminate.
Qed.

Lemma reachable_ok (w : World C) : reachable w -> timers_ok w.
Proof.
  induction 1 as [g | env a w Hr IH].
  - apply initial_ok.
  - now apply step_ok.
Qed.

Lemma steps_reachable (l : list (Env * Action)) (w : World C) :
  reachable w -> reachable (steps l w).
Proof.
  revert w. induction l as [|[env a] l IH]; intros w Hr; simpl.
  - exact Hr.
  - apply IH. now constructor.
Qed.

End Discipline.

(** C3, as amended: when a queued timeout fires, its closure runs once (it
    is the one observation added to the trace, and the timeout has left the
    queue, so firing the same handle again does nothing).  The
    direction-change closure calls [changeSwimDirectionCallback] and then
    sets [swimDirectionChangeTimeoutId] to null.  The flop closure sets the
    playback speed and starts the flop, and leaves [flopTimeoutId] holding
    the handle; that slot is set to null by the mixer's finished
    listener. *)
Theorem C3_timer_fire :
  forall (C : Collaborators) (env : Env) (w : World C) (id : nat)
         (t : Timeout),
    reachable w ->
    find (fun t => Nat.eqb (timer_id t) id) (timers w) = Some t ->
    let w' := fire env id w in
    let w1 := log (obs_timeout id (timer_body t)) (clearTimeout (Some id) w) in
    trace w' = trace w ++ [obs_timeout id (timer_body t)] /\
    fire env id w' = w' /\
    match timer_body t with
    | body_changeSwimDirections =>
        w' = set_swimDirectionChangeTimeoutId None
               (call_changeSwimDirectionCallback env w1) /\
        swimDirectionChangeTimeoutId w = Some id /\
        swimDirectionChangeTimeoutId w' = None
    | body_flop speed nFlops =>
        w' = flop nFlops (setFlopPlaybackSpeed speed w1) /\
        flopTimeoutId w = Some id /\
        flopTimeoutId w' = Some id /\
        flopTimeoutId (on_finished w') = None
    end.
Proof.
  intros C env w id t Hr Hfind w' w1.
  destruct (reachable_ok w Hr) as (Hslot & _ & _).
  destruct (find_id_spec id (timers w) t Hfind) as [Hin Hid].
  assert (Hmine : In t (pending (kind_of (timer_body t)) w)).
  { apply filter_In. split; [exact Hin|]. now apply TimerKind_eqb_eq. }
  specialize (Hslot _ t Hmine). rewrite Hid in Hslot.
  assert (Hw' : w' = run_body env (timer_body t) w1).
  { unfold w', fire. rewrite Hfind. reflexivity. }
  destruct (run_body_frame env (timer_body t) w1) as [Hts Htr].
  split; [rewrite Hw', Htr; reflexivity|].
  split.
  { unfold fire at 1. rewrite Hw', Hts.
    change (timers w1) with (filter (not_id id) (timers w)).
    now rewrite find_id_cleared. }
  destruct (timer_body t) as [|speed nFlops]; simpl in Hslot.
  - split; [exact Hw'|]. split; [exact Hslot|]. rewrite Hw'. reflexivity.
  - split; [exact Hw'|]. split; [exact Hslot|].
    split; [|reflexivity]. rewrite Hw'. exact Hslot.
Qed.

Lemma flop_armed_reachable : reachable flop_armed.
Proof. apply steps_reachable. constructor. Qed.

Lemma C3_timer_fire_witness :
  reachable flop_armed /\
  find (fun t => Nat.eqb (timer_id t) 1) (timers flop_armed)
  = Some (mkTimeout 1 300 (body_flop 0.3 1)) /\
  trace (fire still 1 flop_armed)
  = trace flop_armed ++ [obs_timeout 1 (body_flop 0.3 1)].
Proof.
  split; [exact flop_armed_reachable|].
  split; [reflexivity|].
  exact (proj1 (C3_timer_fire fixed still flop_armed 1
                  (mkTimeout 1 300 (body_flop 0.3 1))
                  flop_armed_reachable eq_refl)).
Defined.

(** C3 as stated fails for the flop timer: with the flop timeout 1 queued
    (slot holding 1), firing it leaves [flopTimeoutId] at 1, not null. *)
Lemma C3_flop_timer_keeps_its_slot :
  ~ fired_timer_clears_its_slot fixed.
Proof.
  intros H.
  specialize (H still flop_armed 1%nat (mkTimeout 1 300 (body_flop 0.3 1))
                flop_armed_reachable eq_refl).
  discriminate H.
Qed.

(** C1: the RESET receiver cancels the flop timer only.  From the initial
    state, a bite (ON_FISH_FIGHT) and one frame leave the fish SWIMMING
    with direction-change timeout 1 queued; RESET then gives IDLE and a
    null flop slot, but [swimDirectionChangeTimeoutId] still holds 1 and
    the timeout is still queued.  When it fires, the idle fish is turned
    away from the orientation RESET gave it.  From any state RESET gives
    IDLE and a null flop slot and leaves the direction-change slot as it
    was. *)
Theorem C1_reset_leaves_direction_timer :
  forall (C : Collaborators) (g : Rand) (env : Env),
    let armed :=
      steps [(env, Publish ON_FISH_FIGHT); (env, Tick)] (initial g) in
    let w := transmit RESET env armed in
    getState armed = SWIMMING /\
    getState w = IDLE /\
    flopTimeoutId w = None /\
    swimDirectionChangeTimeoutId w = Some 1%nat /\
    map timer_id (pending DirectionChange w) = [1%nat] /\
    rotation (fish w) = rot_lookAt (vec3 0 2 50) (fishermanPosition env) /\
    getState (fire env 1 w) = IDLE /\
    (exists angle : R,
       rotation (fish (fire env 1 w)) = rot_axisAngle (vec3 0 1 0) angle) /\
    forall w0 : World C,
      getState (transmit RESET env w0) = IDLE /\
      flopTimeoutId (transmit RESET env w0) = None /\
      swimDirectionChangeTimeoutId (transmit RESET env w0)
      = swimDirectionChangeTimeoutId w0.
Proof.
  intros C g env armed w.
  repeat (split; [reflexivity|]).
  split; [eexists; reflexivity|].
  intros w0. repeat split; reflexivity.
Qed.

(** ** Modes of the fish *)

Section Modes.

Context {C : Collaborators}.

(** What the state container, the direction strategy, the transform and
    the direction slot are after each per-frame callback. *)
Lemma while_SWIMMING_frame (env : Env) (w : World C) :
  state (while_SWIMMING env w) = state w /\
  changeSwimDirectionCallback (while_SWIMMING env w)
  = changeSwimDirectionCallback w /\
  rotation (fish (while_SWIMMING env w)) = rotation (fish w) /\
  scale (fish (while_SWIMMING env w)) = scale (fish w) /\
  flopPlaybackSpeed (while_SWIMMING env w) = flopPlaybackSpeed w /\
  trace (while_SWIMMING env w) = trace w.
Proof.
  unfold while_SWIMMING, changeSwimDirections.
  destruct (swimDirectionChangeTimeoutId w); repeat split; reflexivity.
Qed.

Lemma while_FLOPPING_frame (env : Env) (w : World C) :
  state (while_FLOPPING env w) = state w /\
  changeSwimDirectionCallback (while_FLOPPING env w)
  = changeSwimDirectionCallback w /\
  fish (while_FLOPPING env w) = fish w /\
  swimDirectionChangeTimeoutId (while_FLOPPING env w)
  = swimDirectionChangeTimeoutId w /\
  flopPlaybackSpeed (while_FLOPPING env w) = flopPlaybackSpeed w /\
  trace (while_FLOPPING env w) = trace w.
Proof.
  unfold while_FLOPPING, flopRandomly, animationMixer_update.
  destruct (flopTimeoutId w); simpl;
    match goal with
    | |- context [action_running ?a] => destruct (action_running a)
    end;
    try match goal with
      | |- context [clipFinishes ?a ?dt] => destruct (clipFinishes a dt)
      end;
    repeat split; reflexivity.
Qed.

(** The two ways a frame of BEING_REELED ends: with the catch, which has
    run the ON_FISH_CAUGHT receiver, or without it. *)
Lemma while_BEING_REELED_cases (env : Env) (w : World C) :
  let w' := while_BEING_REELED env w in
  let distance := distanceTo (getPosition w') (fishermanPosition env) in
  scale (fish w') = scale (fish w) /\
  flopPlaybackSpeed w' = flopPlaybackSpeed w /\
  changeSwimDirectionCallback w' = changeSwimDirectionCallback w /\
  ((distance < 30 /\
    state w' = mkState FLOPPING (Some tick_FLOPPING) /\
    rotation (fish w') = rot_euler (degToRad (-90)) 0 0 /\
    swimDirectionChangeTimeoutId w' = None /\
    trace w' = trace w ++ [obs_transmit ON_FISH_CAUGHT]) \/
   (distance >= 30 /\
    state w' = state w /\
    rotation (fish w') = rotation (fish w) /\
    trace w' = trace w)).
Proof.
  intros w' distance.
  destruct (schedule_direction_if_absent_frame w) as (Hf & Ht & Hs).
  simpl in Hf, Ht, Hs.
  assert (Hcb : changeSwimDirectionCallback
                  match swimDirectionChangeTimeoutId w with
                  | None => changeSwimDirections w
                  | Some _ => w
                  end = changeSwimDirectionCallback w /\
                flopPlaybackSpeed
                  match swimDirectionChangeTimeoutId w with
                  | None => changeSwimDirections w
                  | Some _ => w
                  end = flopPlaybackSpeed w).
  { unfold changeSwimDirections.
    destruct (swimDirectionChangeTimeoutId w); split; reflexivity. }
  destruct Hcb as [Hcb Hsp].
  unfold distance, w', while_BEING_REELED, checkDistance in *.
  set (w1 := match swimDirectionChangeTimeoutId w with
             | None => changeSwimDirections w
             | Some _ => w
             end) in *.
  destruct (Rlt_dec (distanceTo (getPosition (swimForward env w1))
                       (fishermanPosition env)) 30) as [Hlt | Hge].
  - split; [simpl; now rewrite Hf|].
    split; [exact Hsp|]. split; [exact Hcb|].
    left. split; [exact Hlt|].
    repeat (split; [reflexivity|]).
    simpl. now rewrite Ht.
  - split; [simpl; now rewrite Hf|].
    split; [exact Hsp|]. split; [exact Hcb|].
    right. split; [lra|]. split; [exact Hs|].
    split; [simpl; now rewrite Hf | exact Ht].
Qed.

Lemma receiver_mode_ok (e : Event) (env : Env) (w : World C) :
  mode_ok (receiver e env w).
Proof.
  destruct e; unfold mode_ok; simpl.
  - reflexivity.
  - repeat split; try reflexivity. eexists. reflexivity.
  - repeat split; try reflexivity. eexists. reflexivity.
  - repeat split; reflexivity.
Qed.

Lemma update_mode_ok (env : Env) (w : World C) :
  mode_ok w -> mode_ok (update env w).
Proof.
  unfold mode_ok, update, State_update.
  destruct (state_tag (state w)) eqn:Htag.
  - intros Hcb. rewrite Hcb, Htag. exact Hcb.
  - intros (Hcb & Hdir & Hrot). rewrite Hcb. unfold call_onTick.
    destruct (while_SWIMMING_frame env w) as (Hs & Hc & Hr & _).
    rewrite Hs, Hc, Hr, Htag. auto.
  - intros (Hcb & Hdir & Hrot). rewrite Hcb. unfold call_onTick.
    destruct (while_BEING_REELED_cases env w)
      as (_ & _ & Hc & [(_ & Hs & Hr & Hslot & _) | (_ & Hs & Hr & _)]).
    + rewrite Hs. simpl. auto.
    + rewrite Hs, Hc, Hr, Htag. auto.
  - intros (Hcb & Hrot & Hslot). rewrite Hcb. unfold call_onTick.
    destruct (while_FLOPPING_frame env w) as (Hs & _ & Hf & Hd & _).
    rewrite Hs, Hf, Hd, Htag. auto.
Qed.

Lemma fire_mode_ok (env : Env) (id : nat) (w : World C) :
  timers_ok w -> mode_ok w -> mode_ok (fire env id w).
Proof.
  intros Hok Hmode. unfold fire.
  destruct (find (fun t => Nat.eqb (timer_id t) id) (timers w))
    as [t|] eqn:Hfind; [|exact Hmode].
  destruct (find_id_spec id (timers w) t Hfind) as [Hin Hid].
  assert (Hmine : In t (pending (kind_of (timer_body t)) w)).
  { apply filter_In. split; [exact Hin|]. now apply TimerKind_eqb_eq. }
  destruct Hok as (Hslot & _ & _). specialize (Hslot _ t Hmine).
  destruct (timer_body t) as [|speed nFlops]; simpl in Hslot |- *.
  - unfold mode_ok in *. unfold call_changeSwimDirectionCallback. simpl.
    destruct (state_tag (state w)) eqn:Htag.
    + destruct (changeSwimDirectionCallback w); simpl; now rewrite Htag.
    + destruct Hmode as (Hcb & Hdir & Hrot). rewrite Hdir. simpl.
      rewrite Htag. repeat split; try assumption. eexists. reflexivity.
    + destruct Hmode as (Hcb & Hdir & Hrot). rewrite Hdir. simpl.
      rewrite Htag. repeat split; try assumption. eexists. reflexivity.
    + destruct Hmode as (_ & _ & Hnone). congruence.
  - exact Hmode.
Qed.

Lemma reachable_fish_ok (w : World C) : reachable w -> fish_ok w.
Proof.
  induction 1 as [g | env a w Hr [Hok Hmode]].
  - split; [apply initial_ok | reflexivity].
  - split; [now apply step_ok|].
    destruct a; simpl.
    + apply receiver_mode_ok.
    + now apply update_mode_ok.
    + now apply fire_mode_ok.
Qed.

End Modes.

Lemma swimming_armed_reachable : reachable swimming_armed.
Proof. apply steps_reachable. constructor. Qed.

Lemma reeled_reachable : reachable reeled.
Proof. apply steps_reachable. constructor. Qed.

Lemma flop_playing_reachable : reachable flop_playing.
Proof. apply steps_reachable. exact flop_armed_reachable. Qed.

(** X1: in every run the state container holds one of four pairs: IDLE
    with no callback, SWIMMING with [while_SWIMMING], BEING_REELED with
    [while_BEING_REELED], FLOPPING with [while_FLOPPING]. *)
Theorem X1_tag_and_callback_pair_up :
  forall (C : Collaborators) (w : World C),
    reachable w ->
    state w = mkState IDLE None \/
    state w = mkState SWIMMING (Some tick_SWIMMING) \/
    state w = mkState BEING_REELED (Some tick_BEING_REELED) \/
    state w = mkState FLOPPING (Some tick_FLOPPING).
Proof.
  intros C w Hr. destruct (reachable_fish_ok w Hr) as [_ Hmode].
  unfold mode_ok in Hmode.
  destruct (state w) as [tag cb]. simpl in Hmode.
  destruct tag.
  - left. now rewrite Hmode.
  - right. left. destruct Hmode as (-> & _). reflexivity.
  - right. right. left. destruct Hmode as (-> & _). reflexivity.
  - right. right. right. destruct Hmode as (-> & _). reflexivity.
Qed.

Lemma X1_tag_and_callback_witness :
  reachable swimming_armed /\
  (state swimming_armed = mkState IDLE None \/
   state swimming_armed = mkState SWIMMING (Some tick_SWIMMING) \/
   state swimming_armed = mkState BEING_REELED (Some tick_BEING_REELED) \/
   state swimming_armed = mkState FLOPPING (Some tick_FLOPPING)).
Proof.
  split; [exact swimming_armed_reachable|].
  exact (X1_tag_and_callback_pair_up fixed swimming_armed
           swimming_armed_reachable).
Defined.

(** X2: in every run, a SWIMMING fish has the away-from-fisherman
    direction strategy installed and a BEING_REELED fish the
    toward-fisherman one, and in both states the fish is turned about the
    y axis only. *)
Theorem X2_swimming_modes :
  forall (C : Collaborators) (w : World C),
    reachable w ->
    (getState w = SWIMMING ->
     changeSwimDirectionCallback w = cb_AwayFisherman /\
     about_y_axis (rotation (fish w))) /\
    (getState w = BEING_REELED ->
     changeSwimDirectionCallback w = cb_TowardFisherman /\
     about_y_axis (rotation (fish w))).
Proof.
  intros C w Hr. destruct (reachable_fish_ok w Hr) as [_ Hmode].
  unfold mode_ok in Hmode. unfold getState, State_get.
  split; intros Htag; rewrite Htag in Hmode; tauto.
Qed.

Lemma X2_swimming_modes_witness :
  reachable swimming_armed /\ getState swimming_armed = SWIMMING /\
  changeSwimDirectionCallback swimming_armed = cb_AwayFisherman /\
  about_y_axis (rotation (fish swimming_armed)).
Proof.
  split; [exact swimming_armed_reachable|]. split; [reflexivity|].
  exact (proj1 (X2_swimming_modes fixed swimming_armed
                  swimming_armed_reachable) eq_refl).
Defined.

(** X3: in every run, a FLOPPING fish lies flat (rotation set from the
    Euler angles (-90 degrees, 0, 0)) and has no direction-change timer:
    the slot is null and no such timeout is queued. *)
Theorem X3_flopping_lies_flat_without_direction_timer :
  forall (C : Collaborators) (w : World C),
    reachable w ->
    getState w = FLOPPING ->
    rotation (fish w) = rot_euler (degToRad (-90)) 0 0 /\
    swimDirectionChangeTimeoutId w = None /\
    pending DirectionChange w = [].
Proof.
  intros C w Hr Htag. destruct (reachable_fish_ok w Hr) as [Hok Hmode].
  unfold mode_ok in Hmode. unfold getState, State_get in Htag.
  rewrite Htag in Hmode. destruct Hmode as (_ & Hrot & Hslot).
  split; [exact Hrot|]. split; [exact Hslot|].
  exact (pending_empty_slot DirectionChange w Hok Hslot).
Qed.

Lemma X3_flopping_witness :
  reachable flop_armed /\ getState flop_armed = FLOPPING /\
  pending DirectionChange flop_armed = [].
Proof.
  split; [exact flop_armed_reachable|]. split; [reflexivity|].
  exact (proj2 (proj2 (X3_flopping_lies_flat_without_direction_timer fixed
                         flop_armed flop_armed_reachable eq_refl))).
Defined.

(** X4: in every run, while the flop action is playing (scheduled in the
    mixer and enabled) no flop timeout is queued, [flopTimeoutId] is not
    null, and so [flopRandomly] does nothing: flop bursts never overlap. *)
Theorem X4_flop_bursts_do_not_overlap :
  forall (C : Collaborators) (w : World C),
    reachable w ->
    action_running (flopAnimationAction w) = true ->
    pending Flop w = [] /\
    flopTimeoutId w <> None /\
    flopRandomly w = w.
Proof.
  intros C w Hr Hrun. destruct (reachable_ok w Hr) as (_ & _ & Hplay).
  destruct (Hplay Hrun) as [Hnil Hocc].
  split; [exact Hnil|]. split; [exact Hocc|].
  exact (schedule_present Flop w Hocc).
Qed.

Lemma X4_flop_bursts_witness :
  reachable flop_playing /\
  action_running (flopAnimationAction flop_playing) = true /\
  flopRandomly flop_playing = flop_playing.
Proof.
  split; [exact flop_playing_reachable|]. split; [reflexivity|].
  exact (proj2 (proj2 (X4_flop_bursts_do_not_overlap fixed flop_playing
                         flop_playing_reachable eq_refl))).
Defined.

(** ** Invariants of the timer side, in general *)

Section TimerInvariants.

Context {C : Collaborators}.

(** A property of the timer side that the five operations on it keep. *)
Variable Inv : World C -> Prop.

Hypothesis Inv_view :
  forall w w', timer_state w' = timer_state w -> Inv w -> Inv w'.
Hypothesis Inv_cancelChangeSwimDirections :
  forall w, Inv w -> Inv (cancelChangeSwimDirections w).
Hypothesis Inv_cancelFlop : forall w, Inv w -> Inv (cancelFlop w).
Hypothesis Inv_schedule : forall k w, Inv w -> Inv (schedule k w).
Hypothesis Inv_animationMixer_update :
  forall dt w, Inv w -> Inv (animationMixer_update dt w).
Hypothesis Inv_fire : forall env id w, Inv w -> Inv (fire env id w).

Lemma Inv_receiver (e : Event) (env : Env) (w : World C) :
  Inv w -> Inv (receiver e env w).
Proof.
  intros H. destruct e.
  - apply (Inv_view (cancelFlop w)); [reflexivity | now apply Inv_cancelFlop].
  - apply (Inv_view (cancelChangeSwimDirections w)); [reflexivity|].
    now apply Inv_cancelChangeSwimDirections.
  - apply (Inv_view (cancelChangeSwimDirections w)); [reflexivity|].
    now apply Inv_cancelChangeSwimDirections.
  - apply (Inv_view (cancelChangeSwimDirections w)); [reflexivity|].
    now apply Inv_cancelChangeSwimDirections.
Qed.

Lemma Inv_schedule_if_absent (k : TimerKind) (w : World C) :
  Inv w ->
  Inv match slot k w with
      | None => schedule k w
      | Some _ => w
      end.
Proof. intros H. destruct (slot k w); [exact H | now apply Inv_schedule]. Qed.

Lemma Inv_update (env : Env) (w : World C) : Inv w -> Inv (update env w).
Proof.
  intros H. unfold update, State_update.
  destruct (state_onTick (state w)) as [[]|]; [| | |exact H];
    unfold call_onTick.
  - pose proof (Inv_schedule_if_absent DirectionChange w H) as H1.
    revert H1. apply Inv_view. reflexivity.
  - pose proof (Inv_schedule_if_absent DirectionChange w H) as H1.
    simpl in H1. unfold while_BEING_REELED, checkDistance.
    set (w1 := match swimDirectionChangeTimeoutId w with
               | None => changeSwimDirections w
               | Some _ => w
               end) in *.
    destruct (Rlt_dec _ _).
    + unfold transmit. apply Inv_receiver. revert H1. apply Inv_view.
      reflexivity.
    + revert H1. apply Inv_view. reflexivity.
  - pose proof (Inv_schedule_if_absent Flop w H) as H1.
    unfold while_FLOPPING. now apply Inv_animationMixer_update.
Qed.

Lemma Inv_step (env : Env) (a : Action) (w : World C) :
  Inv w -> Inv (step env a w).
Proof.
  intros H. destruct a; simpl.
  - unfold transmit. apply Inv_receiver. revert H. apply Inv_view.
    reflexivity.
  - now apply Inv_update.
  - now apply Inv_fire.
Qed.

Lemma Inv_reachable :
  (forall g, Inv (initial g)) -> forall w, reachable w -> Inv w.
Proof.
  intros Hinit w Hr. induction Hr as [g | env a w Hr IH].
  - apply Hinit.
  - now apply Inv_step.
Qed.

End TimerInvariants.

Section TimerFields.

Context {C : Collaborators}.

Lemma schedule_absent_fields (k : TimerKind) (w : World C) :
  slot k w = None ->
  timers (schedule k w) = timers w ++ [scheduled_timeout k w] /\
  nextTimerId (schedule k w) = S (nextTimerId w) /\
  slot k (schedule k w) = Some (nextTimerId w) /\
  (forall k', k' <> k -> slot k' (schedule k w) = slot k' w) /\
  flopPlaybackSpeed (schedule k w) = flopPlaybackSpeed w.
Proof.
  destruct k; simpl; intros Hs.
  - unfold changeSwimDirections. rewrite Hs.
    repeat split; try reflexivity. intros []; [congruence | reflexivity].
  - unfold flopRandomly. rewrite Hs.
    repeat split; try reflexivity. intros []; [reflexivity | congruence].
Qed.

Lemma animationMixer_update_fields (dt : R) (w : World C) :
  timers (animationMixer_update dt w) = timers w /\
  nextTimerId (animationMixer_update dt w) = nextTimerId w /\
  swimDirectionChangeTimeoutId (animationMixer_update dt w)
  = swimDirectionChangeTimeoutId w /\
  flopPlaybackSpeed (animationMixer_update dt w) = flopPlaybackSpeed w /\
  (flopTimeoutId (animationMixer_update dt w) = flopTimeoutId w \/
   flopTimeoutId (animationMixer_update dt w) = None).
Proof.
  unfold animationMixer_update.
  destruct (action_running (flopAnimationAction w));
    [destruct (clipFinishes (flopAnimationAction w) dt)|];
    repeat split; auto.
Qed.

Lemma fire_fields (env : Env) (id : nat) (w : World C) (t : Timeout) :
  find (fun t => Nat.eqb (timer_id t) id) (timers w) = Some t ->
  timers (fire env id w) = filter (not_id id) (timers w) /\
  nextTimerId (fire env id w) = nextTimerId w /\
  match timer_body t with
  | body_changeSwimDirections =>
      swimDirectionChangeTimeoutId (fire env id w) = None /\
      flopTimeoutId (fire env id w) = flopTimeoutId w /\
      flopPlaybackSpeed (fire env id w) = flopPlaybackSpeed w
  | body_flop speed _ =>
      swimDirectionChangeTimeoutId (fire env id w)
      = swimDirectionChangeTimeoutId w /\
      flopTimeoutId (fire env id w) = flopTimeoutId w /\
      flopPlaybackSpeed (fire env id w)
      = if Rle_dec speed 0 then 0.1 else speed
  end.
Proof.
  intros Hfind. unfold fire. rewrite Hfind.
  destruct (timer_body t) as [|speed nFlops]; simpl.
  - unfold call_changeSwimDirectionCallback. simpl.
    destruct (changeSwimDirectionCallback w); repeat split; reflexivity.
  - repeat split; reflexivity.
Qed.

Lemma filter_keeps_all {A : Type} (p : A -> bool) (l : list A) :
  (forall x, In x l -> p x = true) -> filter p l = l.
Proof.
  induction l as [|x l IH]; intros H; simpl; [reflexivity|].
  rewrite (H x (or_introl eq_refl)). f_equal. apply IH.
  intros y Hy. apply H. now right.
Qed.

(** Dropping timeouts from a queue keeps the handles distinct. *)
Lemma distinct_ids_filter (keep : Timeout -> bool) (ts : list Timeout) :
  NoDup (map timer_id ts) -> NoDup (map timer_id (filter keep ts)).
Proof.
  intros Hnd. induction ts as [|t ts IH]; [exact Hnd|].
  simpl in Hnd |- *. apply NoDup_cons_iff in Hnd. destruct Hnd as [Hnew Hnd].
  destruct (keep t); [|tauto].
  simpl. apply NoDup_cons; [|tauto].
  intros Hin. apply Hnew.
  apply in_map_iff in Hin. destruct Hin as (t' & Hid & Hin).
  apply filter_In in Hin. rewrite <- Hid. apply in_map. tauto.
Qed.

Lemma cleared_in (h : option nat) (w : World C) (t : Timeout) :
  In t (cleared h w) -> In t (timers w).
Proof.
  unfold cleared. destruct h; [|trivial].
  intros H. apply filter_In in H. tauto.
Qed.

Lemma cleared_NoDup (h : option nat) (w : World C) :
  NoDup (map timer_id (timers w)) -> NoDup (map timer_id (cleared h w)).
Proof.
  unfold cleared. destruct h; [|trivial]. apply distinct_ids_filter.
Qed.

(** *** Handles *)

Lemma handles_ok_view (w w' : World C) :
  timer_state w' = timer_state w -> handles_ok w -> handles_ok w'.
Proof.
  unfold timer_state. intros Hv. injection Hv as Ht Hn Hd Hf _ _.
  assert (Hslot : forall k, slot k w' = slot k w)
    by (intros []; simpl; assumption).
  unfold handles_ok. rewrite Ht, Hn. intros (H1 & H2 & H3 & H4).
  repeat split; try assumption.
  - intros k id. rewrite Hslot. apply H3.
  - intros k t Hin. rewrite Hslot. now apply H4.
Qed.

Lemma handles_ok_cleared (h : option nat) (w w' : World C) :
  timers w' = cleared h w ->
  nextTimerId w' = nextTimerId w ->
  (forall k, slot k w' = slot k w \/ slot k w' = None) ->
  handles_ok w -> handles_ok w'.
Proof.
  intros Ht Hn Hslot (H1 & H2 & H3 & H4).
  unfold handles_ok. rewrite Ht, Hn.
  split; [now apply cleared_NoDup|].
  split; [intros t Hin; apply H2; now apply (cleared_in h)|].
  split.
  - intros k id Hs. destruct (Hslot k) as [E | E]; rewrite E in Hs.
    + now apply (H3 k).
    + discriminate.
  - intros k t Hin Hs. apply (cleared_in h) in Hin.
    destruct (Hslot k) as [E | E]; rewrite E in Hs.
    + now apply H4.
    + discriminate.
Qed.

Lemma filter_is_cleared (id : nat) (w : World C) :
  filter (not_id id) (timers w) = cleared (Some id) w.
Proof. reflexivity. Qed.

Lemma handles_ok_schedule (k : TimerKind) (w : World C) :
  handles_ok w -> handles_ok (schedule k w).
Proof.
  intros Hok. destruct (slot k w) as [id|] eqn:Hs.
  { rewrite schedule_present; congruence. }
  destruct Hok as (H1 & H2 & H3 & H4).
  destruct (schedule_absent_fields k w Hs) as (Ht & Hn & Hk & Hother & _).
  assert (Hid : timer_id (scheduled_timeout k w) = nextTimerId w)
    by (destruct k; reflexivity).
  assert (Hkind : kind_of (timer_body (scheduled_timeout k w)) = k)
    by (destruct k; reflexivity).
  assert (Hdec : forall k', k' = k \/ k' <> k)
    by (intros k'; destruct k', k; (now left) || (right; discriminate)).
  unfold handles_ok. rewrite Ht, Hn.
  split; [|split; [|split]].
  - rewrite map_app. simpl. rewrite Hid.
    apply NoDup_app; [exact H1 | constructor; [intros [] | constructor] |].
    intros x Hin [Hx | []]. subst x.
    apply in_map_iff in Hin. destruct Hin as (t & Ht' & Hin).
    specialize (H2 t Hin). lia.
  - intros t Hin. apply in_app_or in Hin. destruct Hin as [Hin | [<- | []]].
    + specialize (H2 t Hin). lia.
    + rewrite Hid. lia.
  - intros k' id Hs'. destruct (Hdec k') as [-> | Hne].
    + rewrite Hk in Hs'. injection Hs' as <-. lia.
    + rewrite (Hother k' Hne) in Hs'. specialize (H3 k' id Hs'). lia.
  - intros k' t Hin Hs'. apply in_app_or in Hin.
    destruct (Hdec k') as [-> | Hne].
    + rewrite Hk in Hs'. injection Hs' as Hs'.
      destruct Hin as [Hin | [<- | []]]; [|exact Hkind].
      specialize (H2 t Hin). lia.
    + rewrite (Hother k' Hne) in Hs'.
      destruct Hin as [Hin | [<- | []]]; [now apply H4|].
      rewrite Hid in Hs'. specialize (H3 k' _ Hs'). lia.
Qed.

Lemma handles_ok_fire (env : Env) (id : nat) (w : World C) :
  handles_ok w -> handles_ok (fire env id w).
Proof.
  intros Hok.
  destruct (find (fun t => Nat.eqb (timer_id t) id) (timers w))
    as [t|] eqn:Hfind.
  - destruct (fire_fields env id w t Hfind) as (Ht & Hn & Hbody).
    apply (handles_ok_cleared (Some id) w); try assumption.
    destruct (timer_body t); destruct Hbody as (Hd & Hf & _);
      intros []; simpl; auto.
  - unfold fire. rewrite Hfind. exact Hok.
Qed.

Lemma handles_ok_reachable (w : World C) : reachable w -> handles_ok w.
Proof.
  apply (Inv_reachable handles_ok).
  - exact handles_ok_view.
  - intros w0. apply (handles_ok_cleared (slot DirectionChange w0) w0);
      try reflexivity. intros []; simpl; auto.
  - intros w0. apply (handles_ok_cleared (slot Flop w0) w0);
      try reflexivity. intros []; simpl; auto.
  - exact handles_ok_schedule.
  - intros dt w0.
    destruct (animationMixer_update_fields dt w0)
      as (Ht & Hn & Hd & _ & Hf).
    apply (handles_ok_cleared None w0); try assumption.
    intros []; simpl; auto.
  - exact handles_ok_fire.
  - intros g. split; [constructor|].
    split; [intros t []|].
    split; [intros [] id; discriminate|].
    intros k t [].
Qed.

End TimerFields.

Section TimerFacts.

Context {C : Collaborators}.

(** Clearing the handle of one slot removes no timeout of the other
    kind. *)
Lemma cleared_spares_other_kind (k k' : TimerKind) (w : World C) :
  handles_ok w -> k' <> k ->
  of_kind k' (cleared (slot k w) w) = pending k' w.
Proof.
  intros (_ & _ & _ & Hbind) Hne. unfold cleared.
  destruct (slot k w) as [id|] eqn:Hs; [|reflexivity].
  rewrite of_kind_not_id. apply filter_keeps_all.
  intros t Hin. apply filter_In in Hin. destruct Hin as [Hin Hkind].
  apply TimerKind_eqb_eq in Hkind. unfold not_id.
  destruct (Nat.eqb (timer_id t) id) eqn:E; [|reflexivity].
  apply Nat.eqb_eq in E. subst id.
  specialize (Hbind k t Hin Hs). congruence.
Qed.

Lemma speed_positive_reachable (w : World C) :
  reachable w -> flopPlaybackSpeed w > 0.
Proof.
  apply (Inv_reachable (fun w => flopPlaybackSpeed w > 0)).
  - unfold timer_state. intros w0 w' Hv. injection Hv as _ _ _ _ _ Hs.
    now rewrite Hs.
  - intros w0 H. exact H.
  - intros w0 H. exact H.
  - intros k w0 H. destruct (slot k w0) eqn:Hs.
    + rewrite schedule_present; congruence.
    + destruct (schedule_absent_fields k w0 Hs) as (_ & _ & _ & _ & Hsp).
      now rewrite Hsp.
  - intros dt w0 H.
    destruct (animationMixer_update_fields dt w0) as (_ & _ & _ & Hsp & _).
    now rewrite Hsp.
  - intros env id w0 H.
    destruct (find (fun t => Nat.eqb (timer_id t) id) (timers w0))
      as [t|] eqn:Hfind.
    + destruct (fire_fields env id w0 t Hfind) as (_ & _ & Hbody).
      destruct (timer_body t) as [|speed n].
      * destruct Hbody as (_ & _ & Hsp). now rewrite Hsp.
      * destruct Hbody as (_ & _ & Hsp). rewrite Hsp.
        destruct (Rle_dec speed 0); lra.
    + unfold fire. rewrite Hfind. exact H.
  - intros g. simpl. lra.
Qed.

Hypothesis ints_in_range : getRandomInt_in_range C.
Hypothesis floats_in_range : getRandomFloat_in_range C.

Lemma scheduled_timeout_in_range (k : TimerKind) (w : World C) :
  timeout_in_range (scheduled_timeout k w).
Proof.
  destruct k; unfold timeout_in_range; simpl.
  - apply ints_in_range. lia.
  - split; [apply ints_in_range; lia|].
    split; [apply floats_in_range; lra | apply ints_in_range; lia].
Qed.

Lemma ranges_ok_cleared (h : option nat) (w w' : World C) :
  timers w' = cleared h w ->
  flopPlaybackSpeed w' = flopPlaybackSpeed w ->
  ranges_ok w -> ranges_ok w'.
Proof.
  intros Ht Hs [H1 H2]. unfold ranges_ok. rewrite Ht, Hs.
  split; [|exact H2]. intros t Hin. apply H1. now apply (cleared_in h).
Qed.

Lemma ranges_ok_reachable (w : World C) : reachable w -> ranges_ok w.
Proof.
  apply (Inv_reachable ranges_ok).
  - unfold timer_state. intros w0 w' Hv. injection Hv as Ht _ _ _ _ Hs.
    apply (ranges_ok_cleared None w0); assumption.
  - intros w0. now apply (ranges_ok_cleared (slot DirectionChange w0) w0).
  - intros w0. now apply (ranges_ok_cleared (slot Flop w0) w0).
  - intros k w0 [H1 H2]. destruct (slot k w0) eqn:Hs.
    + rewrite schedule_present; [now split | congruence].
    + destruct (schedule_absent_fields k w0 Hs) as (Ht & _ & _ & _ & Hsp).
      unfold ranges_ok. rewrite Ht, Hsp. split; [|exact H2].
      intros t Hin. apply in_app_or in Hin.
      destruct Hin as [Hin | [<- | []]]; [now apply H1|].
      apply scheduled_timeout_in_range.
  - intros dt w0.
    destruct (animationMixer_update_fields dt w0) as (Ht & _ & _ & Hsp & _).
    now apply (ranges_ok_cleared None w0).
  - intros env id w0 [H1 H2].
    destruct (find (fun t => Nat.eqb (timer_id t) id) (timers w0))
      as [t|] eqn:Hfind.
    + destruct (fire_fields env id w0 t Hfind) as (Ht & _ & Hbody).
      destruct (find_id_spec id (timers w0) t Hfind) as [Hin _].
      pose proof (H1 t Hin) as Hrange. unfold timeout_in_range in Hrange.
      unfold ranges_ok. rewrite Ht. split.
      * intros t' Hin'. apply H1. apply filter_In in Hin'. tauto.
      * destruct (timer_body t) as [|speed n].
        -- destruct Hbody as (_ & _ & Hsp). now rewrite Hsp.
        -- destruct Hbody as (_ & _ & Hsp). rewrite Hsp.
           destruct (Rle_dec speed 0); lra.
    + unfold fire. rewrite Hfind. now split.
  - intros g. split; [intros t [] | simpl; lra].
Qed.

End TimerFacts.

Lemma fixed_getRandomInt_in_range : getRandomInt_in_range fixed.
Proof. intros lo hi g Hle. simpl. lia. Qed.

(** X5: in every run, the receiver of ON_FISH_FIGHT, ON_FISHERMAN_FIGHT or
    ON_FISH_CAUGHT installs its state and leaves no direction-change timer
    behind (slot null, none queued), while a queued flop timeout, the flop
    slot and the flop action are left exactly as they were. *)
Theorem X5_entering_a_mode_cancels_direction_timer :
  forall (C : Collaborators) (e : Event) (env : Env) (w : World C),
    reachable w ->
    e <> RESET ->
    let w' := transmit e env w in
    getState w' = target e /\
    swimDirectionChangeTimeoutId w' = None /\
    pending DirectionChange w' = [] /\
    pending Flop w' = pending Flop w /\
    flopTimeoutId w' = flopTimeoutId w /\
    flopAnimationAction w' = flopAnimationAction w.
Proof.
  intros C e env w Hr Hne w'.
  pose proof (reachable_ok w Hr) as Hok.
  pose proof (handles_ok_reachable w Hr) as Hh.
  assert (Hp : forall k, pending k w' = of_kind k (cleared (slot DirectionChange w) w)).
  { intros k. subst w'. destruct e; [congruence| | |]; reflexivity. }
  split; [destruct e; [congruence| | |]; reflexivity|].
  split; [destruct e; [congruence| | |]; reflexivity|].
  split; [rewrite Hp; now apply cleared_kind_empty|].
  split.
  { rewrite Hp. apply cleared_spares_other_kind; [exact Hh | discriminate]. }
  split; destruct e; [congruence| | | |congruence| | |]; reflexivity.
Qed.

Lemma X5_entering_a_mode_witness :
  reachable flop_armed /\ ON_FISH_FIGHT <> RESET /\
  getState bite_while_flop_armed = SWIMMING /\
  pending Flop bite_while_flop_armed = pending Flop flop_armed.
Proof.
  split; [exact flop_armed_reachable|]. split; [discriminate|].
  pose proof (X5_entering_a_mode_cancels_direction_timer fixed ON_FISH_FIGHT
                still flop_armed flop_armed_reachable ltac:(discriminate))
    as H.
  split; [exact (proj1 H) | exact (proj1 (proj2 (proj2 (proj2 H))))].
Defined.

(** X6: in every run, the RESET receiver leaves no flop timer behind (slot
    null, none queued) and the flop action stopped and rewound, while the
    direction-change slot, every queued direction-change timeout and the
    installed direction strategy are left exactly as they were. *)
Theorem X6_reset_cancels_flop_timer_only :
  forall (C : Collaborators) (env : Env) (w : World C),
    reachable w ->
    let w' := transmit RESET env w in
    flopTimeoutId w' = None /\
    pending Flop w' = [] /\
    action_running (flopAnimationAction w') = false /\
    action_time (flopAnimationAction w') = 0 /\
    swimDirectionChangeTimeoutId w' = swimDirectionChangeTimeoutId w /\
    pending DirectionChange w' = pending DirectionChange w /\
    changeSwimDirectionCallback w' = changeSwimDirectionCallback w.
Proof.
  intros C env w Hr w'.
  pose proof (reachable_ok w Hr) as Hok.
  pose proof (handles_ok_reachable w Hr) as Hh.
  assert (Hp : forall k, pending k w' = of_kind k (cleared (slot Flop w) w))
    by reflexivity.
  split; [reflexivity|].
  split; [rewrite Hp; now apply cleared_kind_empty|].
  split; [reflexivity|]. split; [reflexivity|]. split; [reflexivity|].
  split; [|reflexivity].
  rewrite Hp. apply cleared_spares_other_kind; [exact Hh | discriminate].
Qed.

Lemma X6_reset_witness :
  reachable swimming_armed /\
  pending DirectionChange (transmit RESET still swimming_armed)
  = pending DirectionChange swimming_armed.
Proof.
  split; [exact swimming_armed_reachable|].
  exact (proj1 (proj2 (proj2 (proj2 (proj2 (proj2
           (X6_reset_cancels_flop_timer_only fixed still swimming_armed
              swimming_armed_reachable))))))).
Defined.

(** X7: in every run the flop playback speed is strictly positive,
    whatever the random helpers return. *)
Theorem X7_playback_speed_always_positive :
  forall (C : Collaborators) (w : World C),
    reachable w -> flopPlaybackSpeed w > 0.
Proof. intros C w Hr. now apply speed_positive_reachable. Qed.

Lemma X7_playback_speed_witness :
  reachable flop_playing /\ flopPlaybackSpeed flop_playing > 0.
Proof.
  split; [exact flop_playing_reachable|].
  exact (X7_playback_speed_always_positive fixed flop_playing
           flop_playing_reachable).
Defined.

(** X8: when the random helpers return numbers between their bounds, every
    queued timeout in every run was created within the ranges the code
    asks for: a direction change is due in 300 to 1000 ms; a flop burst is
    due in 300 to 3500 ms, at a speed from 0.3 to 3, for 1 to 10 flops. *)
Theorem X8_queued_timeouts_in_range :
  forall (C : Collaborators),
    getRandomInt_in_range C ->
    getRandomFloat_in_range C ->
    forall (w : World C) (t : Timeout),
      reachable w ->
      In t (timers w) ->
      match timer_body t with
      | body_changeSwimDirections => (300 <= timer_delay t <= 1000)%Z
      | body_flop speed nFlops =>
          (300 <= timer_delay t <= 3500)%Z /\
          0.3 <= speed <= 3 /\
          (1 <= nFlops <= 10)%Z
      end.
Proof.
  intros C Hint Hfloat w t Hr Hin.
  exact (proj1 (ranges_ok_reachable Hint Hfloat w Hr) t Hin).
Qed.

Lemma swimming_armed_timers :
  timers swimming_armed = [mkTimeout 1 300 body_changeSwimDirections].
Proof. reflexivity. Qed.

Lemma X8_queued_timeouts_witness :
  getRandomInt_in_range fixed /\ getRandomFloat_in_range fixed /\
  reachable swimming_armed /\
  In (mkTimeout 1 300 body_changeSwimDirections) (timers swimming_armed) /\
  (300 <= 300 <= 1000)%Z.
Proof.
  assert (Hin : In (mkTimeout 1 300 body_changeSwimDirections)
                  (timers swimming_armed)).
  { rewrite swimming_armed_timers. left. reflexivity. }
  split; [exact fixed_getRandomInt_in_range|].
  split; [exact fixed_getRandomFloat_in_range|].
  split; [exact swimming_armed_reachable|]. split; [exact Hin|].
  exact (X8_queued_timeouts_in_range fixed fixed_getRandomInt_in_range
           fixed_getRandomFloat_in_range swimming_armed _
           swimming_armed_reachable Hin).
Defined.

(** X9: when the random helpers return numbers between their bounds, the
    flop playback speed stays between 0.3 and 3 in every run, and a flop
    timeout that fires stores the speed it was created with: the clamp to
    0.1 in [setFlopPlaybackSpeed] is never taken. *)
Theorem X9_playback_speed_in_range :
  forall (C : Collaborators),
    getRandomInt_in_range C ->
    getRandomFloat_in_range C ->
    forall (env : Env) (w : World C),
      reachable w ->
      0.3 <= flopPlaybackSpeed w <= 3 /\
      forall (id : nat) (t : Timeout) (speed : R) (nFlops : Z),
        find (fun t => Nat.eqb (timer_id t) id) (timers w) = Some t ->
        timer_body t = body_flop speed nFlops ->
        flopPlaybackSpeed (fire env id w) = speed.
Proof.
  intros C Hint Hfloat env w Hr.
  destruct (ranges_ok_reachable Hint Hfloat w Hr) as [Hq Hs].
  split; [exact Hs|].
  intros id t speed nFlops Hfind Hbody.
  destruct (find_id_spec id (timers w) t Hfind) as [Hin _].
  pose proof (Hq t Hin) as Hrange. unfold timeout_in_range in Hrange.
  destruct (fire_fields env id w t Hfind) as (_ & _ & Hfields).
  rewrite Hbody in Hrange, Hfields. destruct Hfields as (_ & _ & Hsp).
  rewrite Hsp. destruct (Rle_dec speed 0); [lra | reflexivity].
Qed.

Lemma X9_playback_speed_witness :
  getRandomInt_in_range fixed /\ getRandomFloat_in_range fixed /\
  reachable flop_armed /\
  flopPlaybackSpeed (fire still 1 flop_armed) = 0.3.
Proof.
  split; [exact fixed_getRandomInt_in_range|].
  split; [exact fixed_getRandomFloat_in_range|].
  split; [exact flop_armed_reachable|].
  exact (proj2 (X9_playback_speed_in_range fixed fixed_getRandomInt_in_range
                  fixed_getRandomFloat_in_range still flop_armed
                  flop_armed_reachable)
           1%nat (mkTimeout 1 300 (body_flop 0.3 1)) 0.3 1%Z eq_refl eq_refl).
Defined.

Section Frames2.

Context {C : Collaborators}.

Lemma update_quiet (env : Env) (w : World C) :
  state_onTick (state w) <> Some tick_BEING_REELED ->
  state (update env w) = state w /\ trace (update env w) = trace w.
Proof.
  intros Hne. unfold update, State_update.
  destruct (state_onTick (state w)) as [[]|]; unfold call_onTick.
  - destruct (while_SWIMMING_frame env w) as (Hs & _ & _ & _ & _ & Ht). auto.
  - congruence.
  - destruct (while_FLOPPING_frame env w) as (Hs & _ & _ & _ & _ & Ht). auto.
  - auto.
Qed.

Lemma updates_quiet (envs : list Env) (w : World C) :
  state_onTick (state w) <> Some tick_BEING_REELED ->
  state (updates envs w) = state w /\ trace (updates envs w) = trace w.
Proof.
  revert w. induction envs as [|env envs IH]; intros w Hne; simpl.
  - auto.
  - destruct (update_quiet env w Hne) as [Hs Ht].
    destruct (IH (update env w)) as [Hs' Ht']; [now rewrite Hs|].
    rewrite Hs', Ht'. auto.
Qed.

Lemma update_still (env : Env) (w : World C) :
  state_onTick (state w) = None \/
  state_onTick (state w) = Some tick_FLOPPING ->
  fish (update env w) = fish w.
Proof.
  unfold update, State_update.
  intros [H | H]; rewrite H; [reflexivity|]. unfold call_onTick.
  now destruct (while_FLOPPING_frame env w) as (_ & _ & Hf & _).
Qed.

Lemma while_SWIMMING_position (env : Env) (w : World C) :
  getPosition (while_SWIMMING env w)
  = addScaledVector (getPosition w) (getWorldDirection (rotation (fish w)))
      (swimSpeed * delta env).
Proof.
  unfold while_SWIMMING, changeSwimDirections, getPosition.
  destruct (swimDirectionChangeTimeoutId w); reflexivity.
Qed.

End Frames2.

(** How far [addScaledVector] moves a point along a unit vector. *)
Lemma addScaledVector_distance (p v : Vector3) (s : R) :
  v_x v * v_x v + v_y v * v_y v + v_z v * v_z v = 1 ->
  0 <= s ->
  distanceTo (addScaledVector p v s) p = s.
Proof.
  intros Hunit Hs. unfold distanceTo, distanceToSquared, addScaledVector.
  simpl.
  replace ((v_x p + v_x v * s - v_x p) * (v_x p + v_x v * s - v_x p) +
           (v_y p + v_y v * s - v_y p) * (v_y p + v_y v * s - v_y p) +
           (v_z p + v_z v * s - v_z p) * (v_z p + v_z v * s - v_z p))
    with ((v_x v * v_x v + v_y v * v_y v + v_z v * v_z v) * (s * s)) by ring.
  rewrite Hunit, Rmult_1_l. now apply sqrt_square.
Qed.

(** X10: only a fish being reeled in ever transmits or changes state by
    itself: with any other per-frame callback installed (or none), any
    number of updates leaves the state container and the trace of
    transmitted events as they were. *)
Theorem X10_only_reeling_updates_transmit :
  forall (C : Collaborators) (envs : list Env) (w : World C),
    state_onTick (state w) <> Some tick_BEING_REELED ->
    state (updates envs w) = state w /\
    trace (updates envs w) = trace w.
Proof. intros C envs w Hne. now apply updates_quiet. Qed.

Lemma X10_only_reeling_witness :
  state_onTick (state swimming_armed) <> Some tick_BEING_REELED /\
  trace (updates [still; still; still] swimming_armed)
  = trace swimming_armed.
Proof.
  assert (H : state_onTick (state swimming_armed)
              <> Some tick_BEING_REELED) by discriminate.
  split; [exact H|].
  exact (proj2 (X10_only_reeling_updates_transmit fixed [still; still; still]
                  swimming_armed H)).
Defined.

(** X11: an IDLE or a FLOPPING fish stays where it is: with no callback or
    with [while_FLOPPING] installed, any number of updates leaves position,
    rotation and scale unchanged. *)
Theorem X11_idle_and_flopping_fish_keep_their_transform :
  forall (C : Collaborators) (envs : list Env) (w : World C),
    state_onTick (state w) = None \/
    state_onTick (state w) = Some tick_FLOPPING ->
    fish (updates envs w) = fish w.
Proof.
  intros C envs. induction envs as [|env envs IH]; intros w H; simpl.
  - reflexivity.
  - assert (Hne : state_onTick (state w) <> Some tick_BEING_REELED)
      by (destruct H as [H | H]; rewrite H; discriminate).
    destruct (update_quiet env w Hne) as [Hs _].
    rewrite IH by (now rewrite Hs). now apply update_still.
Qed.

Lemma X11_flopping_fish_witness :
  (state_onTick (state flop_armed) = None \/
   state_onTick (state flop_armed) = Some tick_FLOPPING) /\
  fish (updates [still; still] flop_armed) = fish flop_armed.
Proof.
  assert (H : state_onTick (state flop_armed) = None \/
              state_onTick (state flop_armed) = Some tick_FLOPPING)
    by (right; reflexivity).
  split; [exact H|].
  exact (X11_idle_and_flopping_fish_keep_their_transform fixed [still; still]
           flop_armed H).
Defined.

(** X12: a SWIMMING or BEING_REELED fish moves, in one update, by
    [swimSpeed * delta] along its world direction and keeps its scale;
    when that direction has length 1 and delta is not negative, the fish
    ends exactly 30 * delta away from where it was. *)
Theorem X12_swimming_fish_moves_at_swim_speed :
  forall (C : Collaborators) (env : Env) (w : World C),
    state_onTick (state w) = Some tick_SWIMMING \/
    state_onTick (state w) = Some tick_BEING_REELED ->
    let v := getWorldDirection (rotation (fish w)) in
    getPosition (update env w)
    = addScaledVector (getPosition w) v (30 * delta env) /\
    scale (fish (update env w)) = scale (fish w) /\
    (v_x v * v_x v + v_y v * v_y v + v_z v * v_z v = 1 ->
     0 <= delta env ->
     distanceTo (getPosition (update env w)) (getPosition w)
     = 30 * delta env).
Proof.
  intros C env w H v.
  assert (Hpos : getPosition (update env w)
                 = addScaledVector (getPosition w) v (30 * delta env)).
  { unfold update, State_update.
    destruct H as [H | H]; rewrite H; unfold call_onTick.
    - apply while_SWIMMING_position.
    - apply while_BEING_REELED_position. }
  split; [exact Hpos|]. split.
  - unfold update, State_update.
    destruct H as [H | H]; rewrite H; unfold call_onTick.
    + now destruct (while_SWIMMING_frame env w) as (_ & _ & _ & Hsc & _).
    + now destruct (while_BEING_REELED_cases env w) as (Hsc & _).
  - intros Hunit Hd. rewrite Hpos.
    apply addScaledVector_distance; [exact Hunit | lra].
Qed.

Lemma X12_swimming_fish_witness :
  (state_onTick (state swimming_armed) = Some tick_SWIMMING \/
   state_onTick (state swimming_armed) = Some tick_BEING_REELED) /\
  distanceTo (getPosition (update still swimming_armed))
    (getPosition swimming_armed)
  = 30 * delta still.
Proof.
  assert (H : state_onTick (state swimming_armed) = Some tick_SWIMMING \/
              state_onTick (state swimming_armed) = Some tick_BEING_REELED)
    by (left; reflexivity).
  split; [exact H|].
  apply (proj2 (proj2 (X12_swimming_fish_moves_at_swim_speed fixed still
                         swimming_armed H))).
  - simpl. lra.
  - simpl. lra.
Defined.

(** X13: in every run, the update in which a reeled-in fish comes within
    30 of the fisherman leaves it FLOPPING and lying flat, with the
    direction-change slot null and no direction-change timeout queued
    (also when this very update had just queued one); it transmits
    ON_FISH_CAUGHT once, and no number of further updates transmits
    anything more or leaves FLOPPING. *)
Theorem X13_catch_ends_reeling :
  forall (C : Collaborators) (env : Env) (w : World C),
    reachable w ->
    getState w = BEING_REELED ->
    distanceTo (getPosition (update env w)) (fishermanPosition env) < 30 ->
    let w' := update env w in
    getState w' = FLOPPING /\
    rotation (fish w') = rot_euler (degToRad (-90)) 0 0 /\
    swimDirectionChangeTimeoutId w' = None /\
    pending DirectionChange w' = [] /\
    trace w' = trace w ++ [obs_transmit ON_FISH_CAUGHT] /\
    forall envs : list Env,
      trace (updates envs w') = trace w' /\
      getState (updates envs w') = FLOPPING.
Proof.
  intros C env w Hr Htag Hnear w'.
  destruct (reachable_fish_ok w Hr) as [Hok Hmode].
  unfold mode_ok in Hmode. unfold getState, State_get in Htag.
  rewrite Htag in Hmode. destruct Hmode as (Hcb & _).
  assert (Hw' : w' = while_BEING_REELED env w).
  { unfold w', update, State_update. rewrite Hcb. reflexivity. }
  assert (Hok' : timers_ok w') by (apply (step_ok env Tick); exact Hok).
  fold w' in Hnear. rewrite Hw' in Hnear.
  destruct (while_BEING_REELED_cases env w)
    as (_ & _ & _ & [(_ & Hs & Hrot & Hslot & Htr) | (Hfar & _)]);
    [|lra].
  rewrite <- Hw' in Hs, Hrot, Hslot, Htr.
  split; [unfold getState, State_get; now rewrite Hs|].
  split; [exact Hrot|]. split; [exact Hslot|].
  split; [exact (pending_empty_slot DirectionChange w' Hok' Hslot)|].
  split; [exact Htr|].
  intros envs.
  destruct (updates_quiet envs w') as [Hs' Ht'].
  { rewrite Hs. discriminate. }
  split; [exact Ht'|].
  unfold getState, State_get. now rewrite Hs', Hs.
Qed.

Lemma X13_catch_witness :
  reachable reeled /\ getState reeled = BEING_REELED /\
  getState (update (mkEnv 0 (vec3 0 0 10) (vec3 5 0 80)) reeled) = FLOPPING.
Proof.
  split; [exact reeled_reachable|]. split; [reflexivity|].
  apply (X13_catch_ends_reeling fixed (mkEnv 0 (vec3 0 0 10) (vec3 5 0 80))
           reeled reeled_reachable eq_refl).
  simpl fishermanPosition. rewrite (reeled_distance 10); lra.
Defined.

Section DirectionChanges.

Context {C : Collaborators}.

Hypothesis floats_in_range : getRandomFloat_in_range C.

Lemma away_rotation (env : Env) (w : World C) :
  let away := getDirection (fishermanPosition env) (getPosition w) in
  exists offset : R,
    rotation (fish (setSwimDirection_AwayFisherman env w))
    = rot_axisAngle (vec3 0 1 0) (atan2 (v_x away) (v_z away) + offset) /\
    - degToRad 90 <= offset <= degToRad 90.
Proof.
  intros away.
  exists (fst (getRandomFloat (- degToRad (180 / 2)) (degToRad (180 / 2))
                 (rng w))).
  split; [reflexivity|].
  replace (degToRad 90) with (degToRad (180 / 2))
    by (unfold degToRad; lra).
  apply floats_in_range.
  pose proof (degToRad_nonneg (180 / 2) ltac:(lra)). lra.
Qed.

Lemma toward_rotation (env : Env) (w : World C) :
  let toward := getDirection (getPosition w) (fishermanPosition env) in
  exists offset : R,
    rotation (fish (setSwimDirection_TowardFisherman env w))
    = rot_axisAngle (vec3 0 1 0) (atan2 (v_x toward) (v_z toward) + offset) /\
    - degToRad 22.5 <= offset <= degToRad 22.5.
Proof.
  intros toward.
  exists (fst (getRandomFloat (- degToRad (45 / 2)) (degToRad (45 / 2))
                 (rng w))).
  split; [reflexivity|].
  replace (degToRad 22.5) with (degToRad (45 / 2))
    by (unfold degToRad; lra).
  apply floats_in_range.
  pose proof (degToRad_nonneg (45 / 2) ltac:(lra)). lra.
Qed.

End DirectionChanges.

(** X14: in every run, when a queued direction-change timeout fires on a
    SWIMMING fish, the fish is turned to the angle of the vector away from
    the fisherman plus an offset within +-90 degrees; on a BEING_REELED
    fish, to the angle of the vector toward the fisherman plus an offset
    within +-22.5 degrees (the random helper returning a number between
    its bounds).  Either way state, position and scale stay as they were
    and the direction-change slot is null again. *)
Theorem X14_direction_change_follows_the_mode :
  forall (C : Collaborators),
    getRandomFloat_in_range C ->
    forall (env : Env) (w : World C) (id : nat) (t : Timeout),
      reachable w ->
      find (fun t => Nat.eqb (timer_id t) id) (timers w) = Some t ->
      timer_body t = body_changeSwimDirections ->
      let w' := fire env id w in
      state w' = state w /\
      position (fish w') = position (fish w) /\
      scale (fish w') = scale (fish w) /\
      swimDirectionChangeTimeoutId w' = None /\
      (getState w = SWIMMING ->
       let away := getDirection (fishermanPosition env) (getPosition w) in
       exists offset : R,
         rotation (fish w')
         = rot_axisAngle (vec3 0 1 0) (atan2 (v_x away) (v_z away) + offset)
         /\ - degToRad 90 <= offset <= degToRad 90) /\
      (getState w = BEING_REELED ->
       let toward := getDirection (getPosition w) (fishermanPosition env) in
       exists offset : R,
         rotation (fish w')
         = rot_axisAngle (vec3 0 1 0)
             (atan2 (v_x toward) (v_z toward) + offset)
         /\ - degToRad 22.5 <= offset <= degToRad 22.5).
Proof.
  intros C Hfloat env w id t Hr Hfind Hbody w'.
  destruct (reachable_fish_ok w Hr) as [_ Hmode]. unfold mode_ok in Hmode.
  set (w1 := log (obs_timeout id body_changeSwimDirections)
               (clearTimeout (Some id) w)).
  assert (Hw' : w' = set_swimDirectionChangeTimeoutId None
                       (call_changeSwimDirectionCallback env w1)).
  { unfold w', fire. rewrite Hfind, Hbody. reflexivity. }
  assert (Hframe : state w' = state w /\
                   position (fish w') = position (fish w) /\
                   scale (fish w') = scale (fish w)).
  { rewrite Hw'. unfold call_changeSwimDirectionCallback.
    destruct (changeSwimDirectionCallback w1); repeat split; reflexivity. }
  destruct Hframe as (Hs & Hp & Hsc).
  repeat (split; [assumption|]).
  split; [rewrite Hw'; reflexivity|].
  unfold getState, State_get.
  split; intros Htag; rewrite Htag in Hmode; destruct Hmode as (_ & Hcb & _);
    rewrite Hw'; unfold call_changeSwimDirectionCallback;
    change (changeSwimDirectionCallback w1)
      with (changeSwimDirectionCallback w); rewrite Hcb.
  - exact (away_rotation Hfloat env w1).
  - exact (toward_rotation Hfloat env w1).
Qed.

Lemma X14_direction_change_witness :
  getRandomFloat_in_range fixed /\ reachable swimming_armed /\
  swimDirectionChangeTimeoutId (fire still 1 swimming_armed) = None.
Proof.
  split; [exact fixed_getRandomFloat_in_range|].
  split; [exact swimming_armed_reachable|].
  exact (proj1 (proj2 (proj2 (proj2
           (X14_direction_change_follows_the_mode fixed
              fixed_getRandomFloat_in_range still swimming_armed 1%nat
              (mkTimeout 1 300 body_changeSwimDirections)
              swimming_armed_reachable eq_refl eq_refl))))).
Defined.

(** X15: cancelling is safe to repeat and safe with nothing to cancel:
    [cancelChangeSwimDirections] and [cancelFlop] called twice do what one
    call does, and [cancelChangeSwimDirections] with a null slot changes
    nothing at all. *)
Theorem X15_cancel_is_idempotent :
  forall (C : Collaborators) (w : World C),
    cancelChangeSwimDirections (cancelChangeSwimDirections w)
    = cancelChangeSwimDirections w /\
    cancelFlop (cancelFlop w) = cancelFlop w /\
    (swimDirectionChangeTimeoutId w = None ->
     cancelChangeSwimDirections w = w).
Proof.
  intros C w. split; [reflexivity|]. split; [reflexivity|].
  intros Hnone. destruct w. simpl in Hnone. subst. reflexivity.
Qed.

Lemma X15_cancel_witness :
  swimDirectionChangeTimeoutId flop_armed = None /\
  cancelChangeSwimDirections flop_armed = flop_armed.
Proof.
  split; [reflexivity|].
  exact (proj2 (proj2 (X15_cancel_is_idempotent fixed flop_armed)) eq_refl).
Defined.

Section Scale.

Context {C : Collaborators}.

Lemma step_scale (env : Env) (a : Action) (w : World C) :
  scale (fish (step env a w)) = scale (fish w) \/
  scale (fish (step env a w))
  = (let s := fst (getRandomFloat 2 5 (rng w)) in vec3 s s s).
Proof.
  destruct a as [e | | id]; simpl.
  - destruct e; [right | left | left | left]; reflexivity.
  - left. unfold update, State_update.
    destruct (state_onTick (state w)) as [[]|]; unfold call_onTick.
    + now destruct (while_SWIMMING_frame env w) as (_ & _ & _ & Hsc & _).
    + now destruct (while_BEING_REELED_cases env w) as (Hsc & _).
    + destruct (while_FLOPPING_frame env w) as (_ & _ & Hf & _).
      now rewrite Hf.
    + reflexivity.
  - left. unfold fire.
    destruct (find (fun t => Nat.eqb (timer_id t) id) (timers w)) as [t|];
      [|reflexivity].
    destruct (timer_body t); simpl; [|reflexivity].
    unfold call_changeSwimDirectionCallback. simpl.
    destruct (changeSwimDirectionCallback w); reflexivity.
Qed.

End Scale.

(** X16: in every run the fish is scaled uniformly: its scale is (s, s, s)
    for one number s, and when [getRandomFloat] returns a number between
    its bounds, s is 1 (the loaded model, before any RESET) or lies between
    2 and 5. *)
Theorem X16_fish_scale_is_uniform :
  forall (C : Collaborators) (w : World C),
    reachable w ->
    exists s : R,
      scale (fish w) = vec3 s s s /\
      (getRandomFloat_in_range C -> s = 1 \/ 2 <= s <= 5).
Proof.
  intros C w Hr. induction Hr as [g | env a w Hr (s & Hs & Hrange)].
  - exists 1. split; [reflexivity | now left].
  - destruct (step_scale env a w) as [E | E].
    + exists s. rewrite E. now split.
    + exists (fst (getRandomFloat 2 5 (rng w))). split; [exact E|].
      intros Hfloat. right. apply Hfloat. lra.
Qed.

Lemma X16_fish_scale_witness :
  reachable flop_armed /\
  exists s : R, scale (fish flop_armed) = vec3 s s s.
Proof.
  split; [exact flop_armed_reachable|].
  destruct (X16_fish_scale_is_uniform fixed flop_armed flop_armed_reachable)
    as (s & Hs & _).
  exists s. exact Hs.
Defined.

(** ** The direction-change slot and the queue *)

Section DirectionSlot.

Context {C : Collaborators}.

(** With distinct handles, a handle names one queued timeout. *)
Lemma same_id_same_timeout (ts : list Timeout) (t t' : Timeout) :
  NoDup (map timer_id ts) ->
  In t ts -> In t' ts -> timer_id t = timer_id t' -> t = t'.
Proof.
  intros Hnd. revert t t'.
  induction ts as [|t0 ts IH]; intros t t' Hin Hin' Hid; [contradiction|].
  simpl in Hnd. apply NoDup_cons_iff in Hnd. destruct Hnd as [Hnew Hnd].
  assert (Hold : forall u, In u ts -> timer_id u <> timer_id t0).
  { intros u Hu E. apply Hnew. rewrite <- E. now apply in_map. }
  destruct Hin as [-> | Hin]; destruct Hin' as [-> | Hin'].
  - reflexivity.
  - exfalso. apply (Hold t' Hin'). congruence.
  - exfalso. apply (Hold t Hin). congruence.
  - now apply IH.
Qed.

Lemma both_view (w w' : World C) :
  timer_state w' = timer_state w -> both w -> both w'.
Proof.
  intros Hv [Hh Hl]. split; [now apply (handles_ok_view w)|].
  unfold timer_state in Hv. injection Hv as Ht _ Hd _ _ _.
  unfold direction_slot_live. now rewrite Ht, Hd.
Qed.

Lemma both_cancelChangeSwimDirections (w : World C) :
  both w -> both (cancelChangeSwimDirections w).
Proof.
  intros [Hh _]. split.
  - apply (handles_ok_cleared (slot DirectionChange w) w);
      try reflexivity; [|exact Hh]. intros []; simpl; auto.
  - intros id Hs. discriminate Hs.
Qed.

Lemma both_cancelFlop (w : World C) : both w -> both (cancelFlop w).
Proof.
  intros [Hh Hl]. split.
  - apply (handles_ok_cleared (slot Flop w) w);
      try reflexivity; [|exact Hh]. intros []; simpl; auto.
  - intros id Hs. destruct (Hl id Hs) as (t & Hin & Hid & Hbody).
    exists t. split; [|now split].
    assert (Hp : In t (pending DirectionChange w)).
    { apply filter_In. split; [exact Hin|]. now rewrite Hbody. }
    rewrite <- (cleared_spares_other_kind Flop DirectionChange w Hh)
      in Hp by discriminate.
    apply filter_In in Hp. exact (proj1 Hp).
Qed.

Lemma both_schedule (k : TimerKind) (w : World C) :
  both w -> both (schedule k w).
Proof.
  intros [Hh Hl]. split; [now apply handles_ok_schedule|].
  destruct (slot k w) as [id0|] eqn:Hs.
  { rewrite schedule_present; [exact Hl | congruence]. }
  destruct (schedule_absent_fields k w Hs) as (Ht & _ & Hk & Hother & _).
  intros id Hid. rewrite Ht. destruct k.
  - change (slot DirectionChange (schedule DirectionChange w) = Some id)
      in Hid.
    rewrite Hk in Hid. injection Hid as <-.
    exists (scheduled_timeout DirectionChange w).
    split; [apply in_or_app; right; now left | split; reflexivity].
  - change (slot DirectionChange (schedule Flop w) = Some id) in Hid.
    rewrite (Hother DirectionChange ltac:(discriminate)) in Hid.
    destruct (Hl id Hid) as (t & Hin & Htid & Hbody).
    exists t. split; [apply in_or_app; now left | now split].
Qed.

Lemma both_animationMixer_update (dt : R) (w : World C) :
  both w -> both (animationMixer_update dt w).
Proof.
  intros [Hh Hl].
  destruct (animationMixer_update_fields dt w) as (Ht & Hn & Hd & _ & Hf).
  split.
  - apply (handles_ok_cleared None w); try assumption.
    intros []; simpl; auto.
  - unfold direction_slot_live. now rewrite Ht, Hd.
Qed.

Lemma both_fire (env : Env) (id : nat) (w : World C) :
  both w -> both (fire env id w).
Proof.
  intros [Hh Hl]. split; [now apply handles_ok_fire|].
  destruct (find (fun t => Nat.eqb (timer_id t) id) (timers w))
    as [t|] eqn:Hfind; [|unfold fire; now rewrite Hfind].
  destruct (fire_fields env id w t Hfind) as (Ht & _ & Hbody).
  destruct (find_id_spec id (timers w) t Hfind) as [Hin Hid].
  intros id0 Hs. destruct (timer_body t) as [|speed n] eqn:Hb.
  - destruct Hbody as (Hd & _). congruence.
  - destruct Hbody as (Hd & _). rewrite Hd in Hs.
    destruct (Hl id0 Hs) as (t0 & Hin0 & Hid0 & Hb0).
    exists t0. rewrite Ht. split; [|now split].
    apply filter_In. split; [exact Hin0|]. unfold not_id.
    destruct (Nat.eqb (timer_id t0) id) eqn:E; [|reflexivity].
    apply Nat.eqb_eq in E. destruct Hh as (Hnd & _).
    assert (t0 = t)
      by (apply (same_id_same_timeout (timers w)); congruence).
    congruence.
Qed.

Lemma direction_slot_live_reachable (w : World C) :
  reachable w -> direction_slot_live w.
Proof.
  intros Hr. apply (Inv_reachable both); try assumption.
  - exact both_view.
  - exact both_cancelChangeSwimDirections.
  - exact both_cancelFlop.
  - exact both_schedule.
  - exact both_animationMixer_update.
  - exact both_fire.
  - intros g. split; [now apply handles_ok_reachable; constructor|].
    intros id Hs. discriminate Hs.
Qed.

(** In a run the direction-change queue is empty or one timeout,
    following the slot. *)
Lemma direction_queue (w : World C) :
  reachable w ->
  match swimDirectionChangeTimeoutId w with
  | None => pending DirectionChange w = []
  | Some id =>
      exists delay : Z,
        pending DirectionChange w
        = [mkTimeout id delay body_changeSwimDirections]
  end.
Proof.
  intros Hr. pose proof (reachable_ok w Hr) as Hok.
  destruct (swimDirectionChangeTimeoutId w) as [id|] eqn:Hs.
  - destruct (direction_slot_live_reachable w Hr id Hs)
      as (t & Hin & Hid & Hbody).
    exists (timer_delay t).
    assert (Hp : In t (pending DirectionChange w)).
    { apply filter_In. split; [exact Hin|]. now rewrite Hbody. }
    destruct Hok as (_ & Hone & _).
    rewrite (at_most_one_is_it _ t _ Hp (Hone DirectionChange)).
    destruct t as [i d b]. simpl in Hid, Hbody. now subst.
  - exact (pending_empty_slot DirectionChange w Hok Hs).
Qed.

Lemma schedule_direction_if_absent_occupied (w : World C) :
  swimDirectionChangeTimeoutId
    match swimDirectionChangeTimeoutId w with
    | None => changeSwimDirections w
    | Some _ => w
    end <> None.
Proof.
  destruct (swimDirectionChangeTimeoutId w) eqn:E.
  - rewrite E. discriminate.
  - unfold changeSwimDirections. rewrite E. discriminate.
Qed.

End DirectionSlot.

(** C4, as amended: in every state the module can reach there is at most
    one queued direction-change timeout and at most one queued flop
    timeout, and calling the schedule-if-absent function of a kind twice in
    a row is the same as calling it once.  Two calls of
    [changeSwimDirections] always leave exactly one direction-change
    timeout queued.  Two calls of [flopRandomly] leave exactly one flop
    timeout queued when [flopTimeoutId] was null or a flop timeout was
    already queued; in the one case left, [flopTimeoutId] still holding
    the handle of a flop timeout that has fired, both calls return at once
    and no flop timeout is queued. *)
Theorem C4_timer_single_flight :
  forall (C : Collaborators) (w : World C),
    reachable w ->
    forall k : TimerKind,
      (length (pending k w) <= 1)%nat /\
      schedule k (schedule k w) = schedule k w /\
      (length (pending k (schedule k (schedule k w))) <= 1)%nat /\
      (k = DirectionChange ->
       length (pending k (schedule k (schedule k w))) = 1%nat) /\
      (slot k w = None ->
       length (pending k (schedule k (schedule k w))) = 1%nat) /\
      (pending k w <> [] ->
       length (pending k (schedule k (schedule k w))) = 1%nat) /\
      (slot k w <> None -> pending k w = [] ->
       k = Flop /\
       length (pending k (schedule k (schedule k w))) = 0%nat).
Proof.
  intros C w Hr k.
  pose proof (reachable_ok w Hr) as Hok.
  pose proof (schedule_ok k w Hok) as Hok'.
  rewrite schedule_twice.
  assert (Habsent : slot k w = None ->
                    length (pending k (schedule k w)) = 1%nat).
  { intros Hs.
    destruct (schedule_absent k w Hs) as (t & Hk & Ht & _).
    unfold pending. rewrite Ht, of_kind_app.
    change (of_kind k (timers w)) with (pending k w).
    rewrite (pending_empty_slot k w Hok Hs), of_kind_one, Hk.
    now rewrite (proj2 (TimerKind_eqb_eq k k) eq_refl). }
  assert (Hqueued : pending k w <> [] ->
                    length (pending k (schedule k w)) = 1%nat).
  { intros Hne.
    destruct (pending k w) as [|t l] eqn:Hp; [congruence|].
    destruct Hok as (H1 & H2 & _).
    assert (Hs : slot k w <> None).
    { rewrite (H1 k t); [discriminate|]. rewrite Hp. now left. }
    rewrite (schedule_present k w Hs), Hp.
    specialize (H2 k). rewrite Hp in H2. simpl in *. lia. }
  pose proof (direction_queue w Hr) as Hdir.
  split; [apply Hok|].
  split; [reflexivity|].
  split; [apply Hok'|].
  split; [|split; [exact Habsent|split; [exact Hqueued|]]].
  - intros ->.
    destruct (swimDirectionChangeTimeoutId w) as [id|] eqn:Hs.
    + apply Hqueued. destruct Hdir as [delay Hq]. rewrite Hq. discriminate.
    + apply Habsent. exact Hs.
  - intros Hs Hnil. split.
    + destruct k; [|reflexivity]. simpl in Hs.
      destruct (swimDirectionChangeTimeoutId w) as [id|]; [|congruence].
      destruct Hdir as [delay Hq]. rewrite Hq in Hnil. discriminate.
    + rewrite (schedule_present k w Hs), Hnil. reflexivity.
Qed.

Lemma C4_timer_single_flight_witness :
  reachable swimming_armed /\
  (length (pending Flop (schedule Flop (schedule Flop swimming_armed)))
   = 1)%nat /\
  reachable flop_playing /\
  (length (pending Flop (schedule Flop (schedule Flop flop_playing)))
   = 0)%nat.
Proof.
  split; [exact swimming_armed_reachable|].
  split.
  { exact (proj1 (proj2 (proj2 (proj2 (proj2
             (C4_timer_single_flight fixed swimming_armed
                swimming_armed_reachable Flop))))) eq_refl). }
  split; [exact flop_playing_reachable|].
  assert (Hs : slot Flop flop_playing <> None) by discriminate.
  exact (proj2 (proj2 (proj2 (proj2 (proj2 (proj2 (proj2
           (C4_timer_single_flight fixed flop_playing
              flop_playing_reachable Flop)))))) Hs eq_refl)).
Defined.

(** C4 as stated fails for the flop timer: with the flop playing,
    [flopTimeoutId] still holds handle 1 of the timeout that fired, and two
    calls of [flopRandomly] leave no flop timeout queued. *)
Lemma C4_two_calls_can_leave_none :
  ~ twice_leaves_exactly_one fixed.
Proof.
  intros H.
  specialize (H flop_playing Flop flop_playing_reachable).
  discriminate H.
Qed.

(** X17: in every run the direction-change slot and the queue agree: with
    the slot null no direction-change timeout is queued, and with the slot
    holding a handle exactly one is queued and it has that handle. *)
Theorem X17_direction_slot_tracks_the_queue :
  forall (C : Collaborators) (w : World C),
    reachable w ->
    (swimDirectionChangeTimeoutId w = None ->
     pending DirectionChange w = []) /\
    (forall id : nat,
        swimDirectionChangeTimeoutId w = Some id ->
        exists delay : Z,
          pending DirectionChange w
          = [mkTimeout id delay body_changeSwimDirections]).
Proof.
  intros C w Hr. pose proof (direction_queue w Hr) as H.
  split.
  - intros Hs. now rewrite Hs in H.
  - intros id Hs. now rewrite Hs in H.
Qed.

Lemma X17_direction_slot_witness :
  reachable swimming_armed /\
  swimDirectionChangeTimeoutId swimming_armed = Some 1%nat /\
  exists delay : Z,
    pending DirectionChange swimming_armed
    = [mkTimeout 1 delay body_changeSwimDirections].
Proof.
  split; [exact swimming_armed_reachable|]. split; [reflexivity|].
  exact (proj2 (X17_direction_slot_tracks_the_queue fixed swimming_armed
                  swimming_armed_reachable) 1%nat eq_refl).
Defined.

(** X18: in every run, after an update of a SWIMMING fish exactly one
    direction-change timeout is queued and the slot holds its handle; the
    same after an update of a BEING_REELED fish that ends 30 or more from
    the fisherman. *)
Theorem X18_swimming_fish_keeps_a_direction_change_pending :
  forall (C : Collaborators) (env : Env) (w : World C),
    reachable w ->
    getState w = SWIMMING \/
    (getState w = BEING_REELED /\
     distanceTo (getPosition (update env w)) (fishermanPosition env) >= 30) ->
    exists (id : nat) (delay : Z),
      swimDirectionChangeTimeoutId (update env w) = Some id /\
      pending DirectionChange (update env w)
      = [mkTimeout id delay body_changeSwimDirections].
Proof.
  intros C env w Hr Hstate.
  destruct (reachable_fish_ok w Hr) as [_ Hmode]. unfold mode_ok in Hmode.
  assert (Hr' : reachable (update env w)) by (apply (reachable_step env Tick); exact Hr).
  pose proof (direction_queue (update env w) Hr') as Hq.
  assert (Hocc : swimDirectionChangeTimeoutId (update env w) <> None).
  { unfold getState, State_get in Hstate. unfold update, State_update in *.
    destruct Hstate as [Htag | [Htag Hfar]]; rewrite Htag in Hmode;
      destruct Hmode as (Hcb & _); rewrite Hcb in *; unfold call_onTick in *.
    - exact (schedule_direction_if_absent_occupied w).
    - clear Hq Hr'. unfold while_BEING_REELED, checkDistance in *.
      destruct (Rlt_dec _ _) as [Hlt | Hge].
      + exfalso. unfold getPosition in Hfar, Hlt.
        rewrite (proj2 (transmit_caught_frame env _)) in Hfar. lra.
      + exact (schedule_direction_if_absent_occupied w). }
  destruct (swimDirectionChangeTimeoutId (update env w)) as [id|];
    [|congruence].
  destruct Hq as [delay Hq]. exists id, delay. now split.
Qed.

Lemma X18_swimming_fish_witness :
  reachable swimming_armed /\ getState swimming_armed = SWIMMING /\
  exists (id : nat) (delay : Z),
    swimDirectionChangeTimeoutId (update still swimming_armed) = Some id /\
    pending DirectionChange (update still swimming_armed)
    = [mkTimeout id delay body_changeSwimDirections].
Proof.
  split; [exact swimming_armed_reachable|]. split; [reflexivity|].
  exact (X18_swimming_fish_keeps_a_direction_change_pending fixed still
           swimming_armed swimming_armed_reachable (or_introl eq_refl)).
Defined.

(** ** Clouds *)

Section CloudFacts.

Import Cloud.

Lemma clamp_bounds (v lo hi : R) : lo <= hi -> lo <= clamp v lo hi <= hi.
Proof.
  intros Hle. unfold clamp. split.
  - apply Rmax_l.
  - apply Rmax_lub; [exact Hle | apply Rmin_l].
Qed.

Lemma clamp_not_above (v amt lo hi : R) :
  lo <= v -> 0 <= amt -> clamp (v - amt) lo hi <= v.
Proof.
  intros Hlo Hamt. unfold clamp.
  apply Rmax_lub; [exact Hlo|].
  pose proof (Rmin_r hi (v - amt)). lra.
Qed.

Lemma clamp_at_floor (v lo hi : R) :
  lo < hi -> (clamp v lo hi <= lo <-> v <= lo).
Proof.
  intros Hlt. unfold clamp, Rmax, Rmin.
  destruct (Rle_dec hi v); destruct (Rle_dec lo _); split; intros; lra.
Qed.

Lemma isNegativeScale_true (cloud : Group) :
  isNegativeScale cloud = true <->
  v_x (scale cloud) <= 1 /\ v_y (scale cloud) <= 1 /\ v_z (scale cloud) <= 1.
Proof.
  unfold isNegativeScale.
  destruct (Rle_dec (v_x (scale cloud)) 1);
    destruct (Rle_dec (v_y (scale cloud)) 1);
    destruct (Rle_dec (v_z (scale cloud)) 1);
    split; try tauto; try discriminate.
Qed.

Lemma isNegativeScale_false (cloud : Group) :
  1 < v_x (scale cloud) -> isNegativeScale cloud = false.
Proof.
  intros H. destruct (isNegativeScale cloud) eqn:E; [|reflexivity].
  apply isNegativeScale_true in E. lra.
Qed.

Context {C : Collaborators}.

Variable randFloat : R -> R -> Rand -> R * Rand.
Variable applyQuaternion : Rotation -> Vector3 -> Vector3.

Hypothesis floats_in_range : getRandomFloat_in_range C.

Lemma randomizeScale_ranges (cloud : Group) (g : Rand) :
  let c := fst (randomizeScale cloud g) in
  position c = position cloud /\
  rotation c = rotation cloud /\
  5000 <= v_x (scale c) <= 50000 /\
  2000 <= v_y (scale c) <= 3000 /\
  (50 <= v_z (scale c) - v_x (scale c) <= 1000 \/
   50 <= v_x (scale c) - v_z (scale c) <= 1000).
Proof.
  unfold randomizeScale. simpl.
  set (first := getRandomFloat minScale maxScale g).
  set (coin := getRandomInt 0 1 (snd first)).
  set (offset := getRandomFloat 50 1000 (snd coin)).
  pose proof (floats_in_range minScale maxScale g) as Hfirst.
  pose proof (floats_in_range 50 1000 (snd coin) ltac:(lra)) as Hoff.
  pose proof (floats_in_range minHeight maxHeight (snd offset)) as Hh.
  fold first in Hfirst. fold offset in Hoff.
  unfold minScale, maxScale, minHeight, maxHeight in *.
  split; [reflexivity|]. split; [reflexivity|].
  split; [apply Hfirst; lra|]. split; [apply Hh; lra|].
  destruct (Z.eqb (fst coin) 0); [left | right]; lra.
Qed.

Hypothesis randFloat_ok : randFloat_in_range randFloat.

Lemma reset_live (cloud : Group) (g : Rand) :
  live (fst (reset randFloat cloud g)) /\
  rotation (fst (reset randFloat cloud g)) = rotation cloud.
Proof.
  unfold reset.
  set (x := randFloat 0 maxScale g).
  set (y := randFloat minElevation maxElevation (snd x)).
  set (z := randFloat (- spawnWidth) spawnWidth (snd y)).
  destruct (randomizeScale_ranges
              (set_position (vec3 (fst x) (fst y) (fst z)) cloud) (snd z))
    as (Hp & Hr & Hx & _).
  split; [split|].
  - rewrite Hp. simpl.
    assert (Hy : minElevation <= fst y <= maxElevation).
    { apply randFloat_ok. unfold maxElevation. lra. }
    unfold minElevation, maxElevation, maxHeight in Hy. lra.
  - apply isNegativeScale_false. lra.
  - rewrite Hr. reflexivity.
Qed.

Lemma update_cloud_live (delta : R) (cloud : Group) (g : Rand) :
  live (fst (update_cloud randFloat applyQuaternion delta cloud g)) /\
  rotation (fst (update_cloud randFloat applyQuaternion delta cloud g))
  = rotation cloud.
Proof.
  unfold update_cloud.
  set (c2 := translateY applyQuaternion (-50 * delta)
               (translateX applyQuaternion (-1000 * delta) cloud)).
  set (c3 := if Rlt_dec (v_x (position c2)) (- disappearDistance / 2)
             then shrink delta c2 else c2).
  assert (Hrot : rotation c3 = rotation cloud).
  { unfold c3. destruct (Rlt_dec _ _); reflexivity. }
  destruct (Rlt_dec (v_y (position c3)) 0) as [Hlow | Hhigh].
  - destruct (reset_live c3 g) as [Hl Hr]. split; [exact Hl | congruence].
  - destruct (isNegativeScale c3) eqn:Hneg.
    + destruct (reset_live c3 g) as [Hl Hr]. split; [exact Hl | congruence].
    + split; [split; [simpl; lra | exact Hneg] | exact Hrot].
Qed.

Lemma update_live (delta : R) (clouds : list Group) (g : Rand) :
  let clouds' := fst (update randFloat applyQuaternion delta clouds g) in
  length clouds' = length clouds /\
  Forall live clouds' /\
  map rotation clouds' = map rotation clouds.
Proof.
  revert g. induction clouds as [|cloud rest IH]; intros g; simpl.
  - repeat split. constructor.
  - destruct (update_cloud_live delta cloud g) as [Hl Hr].
    destruct (IH (snd (update_cloud randFloat applyQuaternion delta cloud g)))
      as (Hlen & Hall & Hrots).
    split; [now rewrite Hlen|].
    split; [now constructor|].
    now rewrite Hr, Hrots.
Qed.

End CloudFacts.

Lemma fixed_randFloat_in_range :
  @Cloud.randFloat_in_range fixed fixed_randFloat.
Proof. intros lo hi g Hle. simpl. lra. Qed.

(** X19: [shrink] leaves every component of a cloud's scale between 1 and
    its cap (50000 for x and z, 3000 for y) whatever the scale and the
    frame time were, and does not touch position or rotation; with a frame
    time that is not negative, a component that was at least 1 does not
    grow. *)
Theorem X19_shrink_stays_within_bounds :
  forall (delta : R) (cloud : Group),
    let s := scale cloud in
    let s' := scale (Cloud.shrink delta cloud) in
    position (Cloud.shrink delta cloud) = position cloud /\
    rotation (Cloud.shrink delta cloud) = rotation cloud /\
    1 <= v_x s' <= 50000 /\ 1 <= v_y s' <= 3000 /\ 1 <= v_z s' <= 50000 /\
    (0 <= delta ->
     (1 <= v_x s -> v_x s' <= v_x s) /\
     (1 <= v_y s -> v_y s' <= v_y s) /\
     (1 <= v_z s -> v_z s' <= v_z s)).
Proof.
  intros delta cloud s s'. unfold s', Cloud.shrink. simpl.
  split; [reflexivity|]. split; [reflexivity|].
  split; [apply clamp_bounds; unfold Cloud.maxScale; lra|].
  split; [apply clamp_bounds; unfold Cloud.maxHeight; lra|].
  split; [apply clamp_bounds; unfold Cloud.maxScale; lra|].
  intros Hd. repeat split; intros H; apply clamp_not_above; lra.
Qed.

Lemma X19_shrink_witness :
  0 <= 1 / 60 /\ 1 <= v_x (scale drifting_cloud) /\
  v_x (scale (Cloud.shrink (1 / 60) drifting_cloud))
  <= v_x (scale drifting_cloud).
Proof.
  assert (Hd : 0 <= 1 / 60) by lra.
  assert (Hx : 1 <= v_x (scale drifting_cloud)) by (simpl; lra).
  split; [exact Hd|]. split; [exact Hx|].
  exact (proj1 (proj2 (proj2 (proj2 (proj2 (proj2
           (X19_shrink_stays_within_bounds (1 / 60) drifting_cloud)))))
           Hd) Hx).
Defined.

(** X20: after [shrink] a cloud counts as shrunk away ([isNegativeScale])
    exactly when each component of its scale, less 1000 * delta, was at
    most 1, that is, when all three have reached the floor of 1. *)
Theorem X20_shrunk_away_at_the_floor :
  forall (delta : R) (cloud : Group),
    Cloud.isNegativeScale (Cloud.shrink delta cloud) = true <->
    v_x (scale cloud) - 1000 * delta <= 1 /\
    v_y (scale cloud) - 1000 * delta <= 1 /\
    v_z (scale cloud) - 1000 * delta <= 1.
Proof.
  intros delta cloud. rewrite isNegativeScale_true.
  unfold Cloud.shrink. simpl.
  rewrite !clamp_at_floor
    by (unfold Cloud.maxScale, Cloud.maxHeight; lra).
  tauto.
Qed.

Lemma X20_shrunk_away_witness :
  (v_x (scale drifting_cloud) - 1000 * 6 <= 1 /\
   v_y (scale drifting_cloud) - 1000 * 6 <= 1 /\
   v_z (scale drifting_cloud) - 1000 * 6 <= 1) /\
  Cloud.isNegativeScale (Cloud.shrink 6 drifting_cloud) = true.
Proof.
  assert (H : v_x (scale drifting_cloud) - 1000 * 6 <= 1 /\
              v_y (scale drifting_cloud) - 1000 * 6 <= 1 /\
              v_z (scale drifting_cloud) - 1000 * 6 <= 1)
    by (simpl; lra).
  split; [exact H|].
  exact (proj2 (X20_shrunk_away_at_the_floor 6 drifting_cloud) H).
Defined.

(** X21: [randomizeScale] leaves position and rotation alone and, when
    [getRandomFloat] returns numbers between its bounds, gives a scale with
    x from 5000 to 50000, y from 2000 to 3000, and z between 50 and 1000
    away from x on one side or the other, so x and z never coincide and z
    may pass the cap of 50000 by up to 1000. *)
Theorem X21_randomizeScale_ranges :
  forall (C : Collaborators),
    getRandomFloat_in_range C ->
    forall (cloud : Group) (g : Rand),
      let c := fst (Cloud.randomizeScale cloud g) in
      position c = position cloud /\
      rotation c = rotation cloud /\
      5000 <= v_x (scale c) <= 50000 /\
      2000 <= v_y (scale c) <= 3000 /\
      (50 <= v_z (scale c) - v_x (scale c) <= 1000 \/
       50 <= v_x (scale c) - v_z (scale c) <= 1000) /\
      4000 <= v_z (scale c) <= 51000.
Proof.
  intros C Hfloat cloud g c.
  destruct (randomizeScale_ranges Hfloat cloud g) as (Hp & Hr & Hx & Hy & Hz).
  fold c in Hp, Hr, Hx, Hy, Hz.
  repeat (split; [assumption|]). lra.
Qed.

Lemma X21_randomizeScale_witness :
  getRandomFloat_in_range fixed /\
  5000 <= v_x (scale (fst (@Cloud.randomizeScale fixed drifting_cloud 0%nat)))
  <= 50000.
Proof.
  split; [exact fixed_getRandomFloat_in_range|].
  exact (proj1 (proj2 (proj2
           (X21_randomizeScale_ranges fixed fixed_getRandomFloat_in_range
              drifting_cloud 0%nat)))).
Defined.

(** X22: when the random helpers return numbers between their bounds, one
    [update] of the clouds, whatever they and the frame time were, keeps
    their number and each one's rotation, and leaves every cloud live: at
    y >= 0 and not shrunk away. *)
Theorem X22_update_leaves_every_cloud_live :
  forall (C : Collaborators)
         (randFloat : R -> R -> Rand -> R * Rand)
         (applyQuaternion : Rotation -> Vector3 -> Vector3),
    getRandomFloat_in_range C ->
    Cloud.randFloat_in_range randFloat ->
    forall (delta : R) (clouds : list Group) (g : Rand),
      let clouds' :=
        fst (Cloud.update randFloat applyQuaternion delta clouds g) in
      length clouds' = length clouds /\
      map rotation clouds' = map rotation clouds /\
      Forall
        (fun cloud =>
           0 <= v_y (position cloud) /\
           Cloud.isNegativeScale cloud = false)
        clouds'.
Proof.
  intros C randFloat applyQuaternion Hfloat Hrand delta clouds g clouds'.
  destruct (update_live randFloat applyQuaternion Hfloat Hrand delta clouds g)
    as (Hlen & Hall & Hrots).
  split; [exact Hlen|]. split; [exact Hrots | exact Hall].
Qed.

Lemma X22_update_witness :
  getRandomFloat_in_range fixed /\
  @Cloud.randFloat_in_range fixed fixed_randFloat /\
  length
    (fst (@Cloud.update fixed fixed_randFloat fixed_applyQuaternion (1 / 60)
            [drifting_cloud; drifting_cloud] 0%nat))
  = 2%nat.
Proof.
  split; [exact fixed_getRandomFloat_in_range|].
  split; [exact fixed_randFloat_in_range|].
  exact (proj1 (X22_update_leaves_every_cloud_live fixed fixed_randFloat
                  fixed_applyQuaternion fixed_getRandomFloat_in_range
                  fixed_randFloat_in_range (1 / 60)
                  [drifting_cloud; drifting_cloud] 0%nat)).
Defined.

(** ** Startup *)

Section StartupFacts.

Import Startup.

Variable throws : Step -> bool.

Lemma attempt_prefix (pre post : list Step) :
  (forall p, In p pre -> throws p = false) ->
  attempt throws (pre ++ post)
  = (map called pre ++ fst (attempt throws post),
     snd (attempt throws post)).
Proof.
  induction pre as [|p pre IH]; intros Hok; simpl.
  - now destruct (attempt throws post).
  - rewrite (Hok p (or_introl eq_refl)).
    rewrite IH by (intros q Hq; apply Hok; now right). reflexivity.
Qed.

Lemma attempt_throws (s : Step) (rest : list Step) :
  throws s = true -> attempt throws (s :: rest) = ([called s], Some s).
Proof. intros H. simpl. now rewrite H. Qed.

Lemma attempt_reached (pre post : list Step) (s : Step) :
  ~ In s pre ->
  In (called s) (fst (attempt throws (pre ++ s :: post))) ->
  forall p, In p pre -> throws p = false.
Proof.
  induction pre as [|q pre IH]; simpl; intros Hnotin Hin p Hp.
  - contradiction.
  - destruct (throws q) eqn:Hq; simpl in Hin.
    + destruct Hin as [E | []]. injection E as ->. tauto.
    + destruct Hin as [E | Hin]; [injection E as ->; tauto|].
      destruct Hp as [<- | Hp]; [exact Hq|].
      apply IH; tauto.
Qed.

Lemma in_main_called (s : Step) :
  In (called s) (main throws) ->
  In (called s) (fst (attempt throws main_body)).
Proof.
  unfold main. destruct (snd (attempt throws main_body)); [|trivial].
  intros H. apply in_app_or in H. destruct H as [H | [E | []]];
    [exact H | discriminate E].
Qed.

End StartupFacts.

(** X23: startup stops at the first step that throws.  The frame loop is
    started only if [loadModels] and every call of [setup], the RESET
    broadcast included, returned; if [loadModels] rejects (the two calls
    before it having returned), nothing after it is called and the error
    is logged once; if nothing throws, every step of [main] and [setup] is
    called once, in order, RESET last before [run]. *)
Theorem X23_startup_stops_at_first_failure :
  forall throws : Startup.Step -> bool,
    (In (Startup.called Startup.run) (Startup.main throws) ->
     throws Startup.loadModels = false /\
     (forall s, In s Startup.setup -> throws s = false) /\
     In (Startup.called Startup.transmit_RESET) (Startup.main throws)) /\
    (throws Startup.initFirebase = false ->
     throws Startup.initScene = false ->
     throws Startup.loadModels = true ->
     Startup.main throws
     = [Startup.called Startup.initFirebase;
        Startup.called Startup.initScene;
        Startup.called Startup.loadModels;
        Startup.console_error Startup.loadModels]) /\
    ((forall s, throws s = false) ->
     Startup.main throws = map Startup.called Startup.main_body).
Proof.
  intros throws. split; [|split].
  - intros Hrun. apply in_main_called in Hrun.
    assert (Hpre : forall p,
               In p ([Startup.initFirebase; Startup.initScene;
                      Startup.loadModels] ++ Startup.setup) ->
               throws p = false).
    { apply (attempt_reached throws _ [] Startup.run).
      - simpl. intuition discriminate.
      - unfold Startup.main_body in Hrun.
        rewrite app_assoc in Hrun. exact Hrun. }
    split; [apply Hpre; simpl; tauto|].
    split; [intros s Hs; apply Hpre; apply in_or_app; now right|].
    unfold Startup.main, Startup.main_body.
    rewrite app_assoc, (attempt_prefix throws _ _ Hpre).
    set (r := Startup.attempt throws [Startup.run]).
    cbn [fst snd].
    assert (Hin : In (Startup.called Startup.transmit_RESET)
                    (map Startup.called
                       ([Startup.initFirebase; Startup.initScene;
                         Startup.loadModels] ++ Startup.setup)))
      by (apply in_map; simpl; tauto).
    destruct (snd r).
    + apply in_or_app. left. apply in_or_app. left. exact Hin.
    + apply in_or_app. left. exact Hin.
  - intros H1 H2 H3. unfold Startup.main.
    change Startup.main_body
      with ([Startup.initFirebase; Startup.initScene]
              ++ Startup.loadModels :: (Startup.setup ++ [Startup.run])).
    rewrite (attempt_prefix throws
               [Startup.initFirebase; Startup.initScene]).
    + rewrite (attempt_throws throws _ _ H3). reflexivity.
    + intros p [<- | [<- | []]]; assumption.
  - intros Hok. unfold Startup.main.
    pose proof (attempt_prefix throws Startup.main_body []
                  (fun p _ => Hok p)) as H.
    rewrite app_nil_r in H. rewrite H. cbn [fst snd Startup.attempt].
    apply app_nil_r.
Qed.

Lemma X23_startup_witness :
  (fun s => match s with Startup.loadModels => true | _ => false end)
    Startup.initFirebase = false /\
  Startup.main
    (fun s => match s with Startup.loadModels => true | _ => false end)
  = [Startup.called Startup.initFirebase;
     Startup.called Startup.initScene;
     Startup.called Startup.loadModels;
     Startup.console_error Startup.loadModels].
Proof.
  split; [reflexivity|].
  exact (proj1 (proj2 (X23_startup_stops_at_first_failure
                         (fun s => match s with
                                   | Startup.loadModels => true
                                   | _ => false
                                   end)))
           eq_refl eq_refl eq_refl).
Defined.

(** X24: in every run, a bite (ON_FISH_FIGHT) followed by one update, or
    the start of reeling (ON_FISHERMAN_FIGHT) followed by one update that
    ends 30 or more from the fisherman, leaves exactly one
    direction-change timeout queued, and it is a new one: its handle is
    the next handle of the state before the event, which no timeout queued
    then had. *)
Theorem X24_mode_entry_rearms_with_a_new_timer :
  forall (C : Collaborators) (e : Event) (env env' : Env) (w : World C),
    reachable w ->
    let w1 := transmit e env w in
    let w2 := update env' w1 in
    e = ON_FISH_FIGHT \/
    (e = ON_FISHERMAN_FIGHT /\
     distanceTo (getPosition w2) (fishermanPosition env') >= 30) ->
    getState w2 = target e /\
    swimDirectionChangeTimeoutId w2 = Some (nextTimerId w) /\
    (exists delay : Z,
        pending DirectionChange w2
        = [mkTimeout (nextTimerId w) delay body_changeSwimDirections]) /\
    forall t : Timeout, In t (timers w) -> timer_id t <> nextTimerId w.
Proof.
  intros C e env env' w Hr w1 w2 He.
  assert (Hr2 : reachable w2).
  { apply (reachable_step env' Tick). now apply (reachable_step env (Publish e)). }
  assert (Hfacts : getState w2 = target e /\
                   swimDirectionChangeTimeoutId w2 = Some (nextTimerId w)).
  { destruct He as [-> | [-> Hfar]].
    - split; reflexivity.
    - unfold w2, update, State_update in *.
      change (state_onTick (state w1)) with (Some tick_BEING_REELED) in *.
      unfold call_onTick, while_BEING_REELED, checkDistance in *.
      destruct (Rlt_dec _ _) as [Hlt | Hge].
      + exfalso. unfold getPosition in Hfar, Hlt.
        rewrite (proj2 (transmit_caught_frame env' _)) in Hfar. lra.
      + split; reflexivity. }
  destruct Hfacts as [Htag Hslot].
  split; [exact Htag|]. split; [exact Hslot|].
  split.
  - pose proof (direction_queue w2 Hr2) as Hq. now rewrite Hslot in Hq.
  - intros t Hin. destruct (handles_ok_reachable w Hr) as (_ & Hlt & _).
    specialize (Hlt t Hin). lia.
Qed.

Lemma X24_mode_entry_witness :
  reachable swimming_armed /\
  swimDirectionChangeTimeoutId
    (update still (transmit ON_FISH_FIGHT still swimming_armed))
  = Some (nextTimerId swimming_armed).
Proof.
  split; [exact swimming_armed_reachable|].
  exact (proj1 (proj2
           (X24_mode_entry_rearms_with_a_new_timer fixed ON_FISH_FIGHT still
              still swimming_armed swimming_armed_reachable
              (or_introl eq_refl)))).
Defined.
